(** * A sharded concurrent hash map (map.go), embedded sequentially

    The Go package keeps a fixed slice of shards; every shard owns a
    [sync.RWMutex] and a built-in map.  A key is routed to a shard by the
    32-bit FNV-1a hash of its [%v] rendering, masked with
    [shardCount - 1].

    The embedding follows one goroutine at a time.  Go objects that are
    reached through pointers (the shard structs and the built-in maps)
    live in an explicit heap, so that aliasing between a map and its clone
    can be stated; the [ConcurrentHashMap] struct itself is never written
    after construction and is kept as a value.

    What the embedding covers:
    - Key types.  A key type comes with a decidable identity ([Countable])
      and with its [%v] rendering ([Formatter]).  The built-in map of a
      shard is a [gmap]; this is Go's map for the key types on which [==]
      is the identity of values: integers, strings, booleans, structs and
      arrays of these.  On floating-point keys [==] is not the identity
      ([0.0 == -0.0], [NaN != NaN]); for them the package is embedded a
      second time, with built-in maps whose keys are compared by [==]
      (module [comparable], [GoEq], [float64_special]), and the theorems
      about [gmap] shards speak of key types with identity only.
    - Mutexes.  The state of a [sync.RWMutex] is kept as far as a single
      goroutine can observe it: a lock that can never be granted and an
      unlock of a free mutex both end the computation without a result.
    - Visitors.  The closure given to [Range] carries its captured
      variables as a state of its own and does not call back into the
      container.
    - Iteration order.  [range] over a built-in map may enumerate it in any
      order ([RangeOrder]).
    - Memory is unbounded: [make] fails on a negative length only. *)

From Stdlib Require Import ZArith Lia.
From stdpp Require Import gmap strings list fin_maps sorting.

Local Open Scope Z_scope.

(** ** hash/fnv: the 32-bit FNV-1a fingerprint *)

Module fnv.

Definition offset32 : Z := 2166136261.
Definition prime32 : Z := 16777619.

(** Arithmetic on [uint32] wraps around. *)
Definition uint32 (z : Z) : Z := z mod 2 ^ 32.

(** [sum32a.Write]: for every byte, xor then multiply. *)
Fixpoint sum32a_Write (hash : Z) (data : list Byte.byte) : Z :=
  match data with
  | [] => hash
  | c :: data' =>
      let hash := Z.lxor hash (Z.of_N (Byte.to_N c)) in
      let hash := uint32 (hash * prime32) in
      sum32a_Write hash data'
  end.

(** [h := fnv.New32a(); h.Write(data); h.Sum32()] *)
Definition Sum32 (data : list Byte.byte) : Z := sum32a_Write offset32 data.

End fnv.

(** ** What the generic parameters bring with them *)

(** The text [fmt.Sprintf("%v", reflect.ValueOf(key))] for a key type. *)
Class Formatter (K : Type) := Sprintf_v : K → string.

(** Go's [==] on a comparable type, as the built-in map uses it. *)
Class GoEq (K : Type) := go_eq : K → K → bool.

(** The zero value of a type, returned by a failed map index. *)
Class ZeroValue (V : Type) := zero_value : V.

(** The order in which [range] walks a built-in map is unspecified: any
    enumeration of the entries. *)
Class RangeOrder (K V : Type) `{Countable K} := {
  map_range : gmap K V → list (K * V);
  map_range_perm : ∀ m, map_range m ≡ₚ map_to_list m
}.

(** ** The heap *)

Definition loc := positive.

(** [type shard struct { sync.RWMutex; items map[K]V }]: the state of
    the mutex (number of readers, writer flag) and a reference to the
    built-in map. *)
Record shard := mkShard {
  rw_readers : nat;
  rw_writer : bool;
  items : loc
}.

Record Heap (K V : Type) `{Countable K} := mkHeap {
  shard_cells : gmap loc shard;
  map_cells : gmap loc (gmap K V)
}.
Arguments mkHeap {K V _ _} _ _.
Arguments shard_cells {K V _ _} _.
Arguments map_cells {K V _ _} _.

(** [type ConcurrentHashMap struct { shards []*shard; shardMask uint32 }] *)
Record ConcurrentHashMap := mkCHM {
  shards : list loc;
  shardMask : Z
}.

(** ** Computations on the heap *)

(** A computation reads and writes a state and may yield no result: a
    run-time panic, or a goroutine blocked on a mutex for ever. *)
Definition M (St A : Type) : Type := St → option (A * St).

Definition ret {St A} (a : A) : M St A := λ σ, Some (a, σ).
Definition bind {St A B} (m : M St A) (k : A → M St B) : M St B :=
  λ σ, match m σ with
       | Some (a, σ') => k a σ'
       | None => None
       end.
Definition panic {St A} : M St A := λ _, None.

Notation "x <- m ;; k" := (bind m (λ x, k))
  (at level 100, m at next level, right associativity).
Notation "m ;;; k" := (bind m (λ _, k))
  (at level 100, right associativity).

Section Operations.
Context {K V : Type} `{Countable K}.
Context `{!Formatter K} `{!ZeroValue V} `{!RangeOrder K V}.

Local Abbreviation GoM := (M (Heap K V)).

(** *** Heap cells *)

Definition load_shard (s : loc) : GoM shard :=
  λ σ, match shard_cells σ !! s with
       | Some sh => Some (sh, σ)
       | None => None
       end.

Definition store_shard (s : loc) (sh : shard) : GoM unit :=
  λ σ, match shard_cells σ !! s with
       | Some _ => Some (tt, mkHeap (<[s := sh]> (shard_cells σ)) (map_cells σ))
       | None => None
       end.

Definition load_map (m : loc) : GoM (gmap K V) :=
  λ σ, match map_cells σ !! m with
       | Some content => Some (content, σ)
       | None => None
       end.

Definition store_map (m : loc) (content : gmap K V) : GoM unit :=
  λ σ, match map_cells σ !! m with
       | Some _ => Some (tt, mkHeap (shard_cells σ) (<[m := content]> (map_cells σ)))
       | None => None
       end.

(** [&shard[K, V]{items: m}]: a new shard with an unlocked mutex. *)
Definition new_shard (m : loc) : GoM loc :=
  λ σ, let s := fresh (dom (shard_cells σ)) in
       Some (s, mkHeap (<[s := mkShard 0 false m]> (shard_cells σ)) (map_cells σ)).

(** A new built-in map holding [content]. *)
Definition alloc_map (content : gmap K V) : GoM loc :=
  λ σ, let m := fresh (dom (map_cells σ)) in
       Some (m, mkHeap (shard_cells σ) (<[m := content]> (map_cells σ))).

(** *** Built-in maps and package maps *)

(** [make(map[K]V)] *)
Definition make_map : GoM loc := alloc_map ∅.

(** [val, ok := m[key]]: a key that is absent gives the zero value.  Here
    and in the three operations that follow, a key is found by identity,
    which is what [==] does on the key types of this section. *)
Definition index_result (content : gmap K V) (key : K) : V * bool :=
  match content !! key with
  | Some val => (val, true)
  | None => (zero_value, false)
  end.

Definition map_index (m : loc) (key : K) : GoM (V * bool) :=
  content <- load_map m ;;
  ret (index_result content key).

(** [m[key] = value] *)
Definition map_assign (m : loc) (key : K) (value : V) : GoM unit :=
  content <- load_map m ;;
  store_map m (<[key := value]> content).

(** [delete(m, key)] *)
Definition map_delete (m : loc) (key : K) : GoM unit :=
  content <- load_map m ;;
  store_map m (delete key content).

(** [maps.Clone(m)]: a new map with the entries of [m]. *)
Definition maps_Clone (m : loc) : GoM loc :=
  content <- load_map m ;;
  alloc_map content.

(** [maps.EqualFunc(m1, m2, eq)]: same length, and every entry of [m1]
    has a partner in [m2] with an [eq] value. *)
Definition maps_EqualFunc (m1 m2 : loc) (eq : V → V → bool) : GoM bool :=
  c1 <- load_map m1 ;;
  c2 <- load_map m2 ;;
  if negb (size c1 =? size c2)%nat then ret false
  else ret (forallb (λ kv, match c2 !! kv.1 with
                           | Some v2 => eq kv.2 v2
                           | None => false
                           end) (map_range c1)).

(** *** sync.RWMutex, seen from one goroutine *)

(** [RLock] waits while a writer holds the mutex. *)
Definition RLock (s : loc) : GoM unit :=
  sh <- load_shard s ;;
  if rw_writer sh then panic
  else store_shard s (mkShard (S (rw_readers sh)) (rw_writer sh) (items sh)).

(** [RUnlock] of a mutex that is not read-locked is a fatal error. *)
Definition RUnlock (s : loc) : GoM unit :=
  sh <- load_shard s ;;
  match rw_readers sh with
  | O => panic
  | S n => store_shard s (mkShard n (rw_writer sh) (items sh))
  end.

(** [Lock] waits while anybody holds the mutex. *)
Definition Lock (s : loc) : GoM unit :=
  sh <- load_shard s ;;
  if rw_writer sh then panic
  else match rw_readers sh with
       | O => store_shard s (mkShard O true (items sh))
       | S _ => panic
       end.

(** [Unlock] of a mutex that is not locked is a fatal error. *)
Definition Unlock (s : loc) : GoM unit :=
  sh <- load_shard s ;;
  if rw_writer sh then store_shard s (mkShard (rw_readers sh) false (items sh))
  else panic.

(** [shard.items]: the map reference held in a shard. *)
Definition shard_items (s : loc) : GoM loc :=
  sh <- load_shard s ;;
  ret (items sh).

(** *** NewConcurrentHashMap *)

(** [uint32(shardCount) - 1], in [uint32] arithmetic. *)
Definition mask_of (shardCount : Z) : Z :=
  fnv.uint32 (fnv.uint32 shardCount - 1).

(** The loop [for i := range shards { shards[i] = &shard{items: make(map[K]V)} }]. *)
Fixpoint new_shards (n : nat) : GoM (list loc) :=
  match n with
  | O => ret []
  | S n' =>
      m <- make_map ;;
      s <- new_shard m ;;
      rest <- new_shards n' ;;
      ret (s :: rest)
  end.

(** [make] panics on a negative length. *)
Definition NewConcurrentHashMap (shardCount : Z) : GoM ConcurrentHashMap :=
  if shardCount <? 0 then panic
  else
    shards <- new_shards (Z.to_nat shardCount) ;;
    ret {| shards := shards; shardMask := mask_of shardCount |}.

(** *** getShard *)

Definition keyHash (key : K) : Z :=
  fnv.Sum32 (String.list_byte_of_string (Sprintf_v key)).

(** The index [h.Sum32() & c.shardMask]. *)
Definition shardIndex (c : ConcurrentHashMap) (key : K) : Z :=
  Z.land (keyHash key) (shardMask c).

(** Indexing the slice out of range panics. *)
Definition getShard (c : ConcurrentHashMap) (key : K) : GoM loc :=
  match shards c !! Z.to_nat (shardIndex c key) with
  | Some s => ret s
  | None => panic
  end.

(** *** Get, Set, Delete *)

Definition Get (c : ConcurrentHashMap) (key : K) : GoM (V * bool) :=
  shard <- getShard c key ;;
  RLock shard ;;;
  m <- shard_items shard ;;
  r <- map_index m key ;;
  RUnlock shard ;;;
  ret r.

Definition Set_ (c : ConcurrentHashMap) (key : K) (value : V) : GoM unit :=
  shard <- getShard c key ;;
  Lock shard ;;;
  m <- shard_items shard ;;
  map_assign m key value ;;;
  Unlock shard.

Definition Delete (c : ConcurrentHashMap) (key : K) : GoM unit :=
  shard <- getShard c key ;;
  Lock shard ;;;
  m <- shard_items shard ;;
  map_delete m key ;;;
  Unlock shard.

(** *** Range, All, Collect *)

(** The inner loop [for k, v := range shard.items { if !f(k, v) { ... return } }]
    over the entries in the order the built-in map hands them out.  The
    visitor is a Go closure: it carries its captured variables as a state
    [St] and answers whether the walk goes on.  The boolean of the result
    tells whether the loop ran to its end. *)
Fixpoint visit_items {St} (f : K → V → St → St * bool)
    (entries : list (K * V)) (st : St) : St * bool :=
  match entries with
  | [] => (st, true)
  | (k, v) :: entries' =>
      let '(st', continue) := f k v st in
      if continue then visit_items f entries' st' else (st', false)
  end.

(** The outer loop [for _, shard := range c.shards]: read-lock the shard,
    walk its entries, unlock; a visitor that answers false unlocks and
    returns from the whole function. *)
Fixpoint visit_shards {St} (f : K → V → St → St * bool)
    (ss : list loc) (st : St) : GoM St :=
  match ss with
  | [] => ret st
  | shard :: ss' =>
      RLock shard ;;;
      m <- shard_items shard ;;
      content <- load_map m ;;
      let '(st', continue) := visit_items f (map_range content) st in
      RUnlock shard ;;;
      if continue then visit_shards f ss' st' else ret st'
  end.

Definition Range {St} (c : ConcurrentHashMap)
    (f : K → V → St → St * bool) (st : St) : GoM St :=
  visit_shards f (shards c) st.

(** [All] returns the function that runs the same two loops with
    [yield] in the place of [f]. *)
Definition All {St} (c : ConcurrentHashMap)
    : (K → V → St → St * bool) → St → GoM St :=
  λ yield st, visit_shards yield (shards c) st.

(** [maps.Collect(c.All())]: assign every pair that is yielded into a new
    map, which is returned (here: its entries). *)
Definition Collect (c : ConcurrentHashMap) : GoM (gmap K V) :=
  All c (λ k v (r : gmap K V), (<[k := v]> r, true)) ∅.

(** *** Clone *)

(** [shards[i]] on a slice. *)
Definition slice_index (ss : list loc) (i : nat) : GoM loc :=
  match ss !! i with
  | Some s => ret s
  | None => panic
  end.

(** [s.items = m] *)
Definition set_shard_items (s : loc) (m : loc) : GoM unit :=
  sh <- load_shard s ;;
  store_shard s (mkShard (rw_readers sh) (rw_writer sh) m).

(** The loop [for i, shard := range c.shards] of [Clone], from index [i]
    on. *)
Fixpoint Clone_loop (newMap : ConcurrentHashMap) (i : nat)
    (ss : list loc) : GoM unit :=
  match ss with
  | [] => ret tt
  | shard :: ss' =>
      RLock shard ;;;
      target <- slice_index (shards newMap) i ;;
      m <- shard_items shard ;;
      m' <- maps_Clone m ;;
      set_shard_items target m' ;;;
      RUnlock shard ;;;
      Clone_loop newMap (S i) ss'
  end.

Definition Clone (c : ConcurrentHashMap) : GoM ConcurrentHashMap :=
  newMap <- NewConcurrentHashMap (Z.of_nat (length (shards c))) ;;
  Clone_loop newMap 0 (shards c) ;;;
  ret newMap.

(** *** EqualFunc *)

(** The loop [for i, shard := range c.shards] of [EqualFunc], from index
    [i] on. *)
Fixpoint EqualFunc_loop (other : ConcurrentHashMap) (eq : V → V → bool)
    (i : nat) (ss : list loc) : GoM bool :=
  match ss with
  | [] => ret true
  | shard :: ss' =>
      RLock shard ;;;
      otherShard <- slice_index (shards other) i ;;
      RLock otherShard ;;;
      m1 <- shard_items shard ;;
      m2 <- shard_items otherShard ;;
      equal <- maps_EqualFunc m1 m2 eq ;;
      RUnlock otherShard ;;;
      RUnlock shard ;;;
      if negb equal then ret false
      else EqualFunc_loop other eq (S i) ss'
  end.

Definition EqualFunc (c other : ConcurrentHashMap) (eq : V → V → bool)
    : GoM bool :=
  if negb (length (shards c) =? length (shards other))%nat then ret false
  else EqualFunc_loop other eq 0 (shards c).

End Operations.

Arguments Set_ {K V _ _ _} c key value.

(** ** Keys, Values, Insert *)

Section Sequences.
Context {K V : Type} `{Countable K}.
Context `{!Formatter K} `{!ZeroValue V} `{!RangeOrder K V}.

Local Abbreviation GoM := (M (Heap K V)).

(** The inner loop [for k := range shard.items { if !yield(k) { ... return } }]
    of [Keys]: the built-in map is walked as in [Range], the values are
    not looked at. *)
Fixpoint yield_keys {St} (yield : K → St → St * bool)
    (entries : list (K * V)) (st : St) : St * bool :=
  match entries with
  | [] => (st, true)
  | (k, _) :: entries' =>
      let '(st', continue) := yield k st in
      if continue then yield_keys yield entries' st' else (st', false)
  end.

Fixpoint Keys_shards {St} (yield : K → St → St * bool)
    (ss : list loc) (st : St) : GoM St :=
  match ss with
  | [] => ret st
  | shard :: ss' =>
      RLock shard ;;;
      m <- shard_items shard ;;
      content <- load_map m ;;
      let '(st', continue) := yield_keys yield (map_range content) st in
      RUnlock shard ;;;
      if continue then Keys_shards yield ss' st' else ret st'
  end.

Definition Keys {St} (c : ConcurrentHashMap)
    : (K → St → St * bool) → St → GoM St :=
  λ yield st, Keys_shards yield (shards c) st.

(** The inner loop [for _, v := range shard.items] of [Values]. *)
Fixpoint yield_values {St} (yield : V → St → St * bool)
    (entries : list (K * V)) (st : St) : St * bool :=
  match entries with
  | [] => (st, true)
  | (_, v) :: entries' =>
      let '(st', continue) := yield v st in
      if continue then yield_values yield entries' st' else (st', false)
  end.

Fixpoint Values_shards {St} (yield : V → St → St * bool)
    (ss : list loc) (st : St) : GoM St :=
  match ss with
  | [] => ret st
  | shard :: ss' =>
      RLock shard ;;;
      m <- shard_items shard ;;
      content <- load_map m ;;
      let '(st', continue) := yield_values yield (map_range content) st in
      RUnlock shard ;;;
      if continue then Values_shards yield ss' st' else ret st'
  end.

Definition Values {St} (c : ConcurrentHashMap)
    : (V → St → St * bool) → St → GoM St :=
  λ yield st, Values_shards yield (shards c) st.

(** An [iter.Seq2[K, V]] whose [yield] works on the heap: a function that
    is handed [yield] and calls it as it pleases. *)
Definition Seq2 : Type := (K → V → GoM bool) → GoM unit.

(** [Insert]: the sequence is handed a [yield] that stores the pair with
    [Set] and always asks for more. *)
Definition Insert (c : ConcurrentHashMap) (seq : Seq2) : GoM unit :=
  seq (λ k v, Set_ c k v ;;; ret true).

(** The producer that yields the pairs of a list in order and returns
    when [yield] answers false. *)
Fixpoint seq_of_list (l : list (K * V)) : Seq2 :=
  λ yield,
    match l with
    | [] => ret tt
    | (k, v) :: l' =>
        continue <- yield k v ;;
        if continue then seq_of_list l' yield else ret tt
    end.

(** The producer of the package's test, which does not look at what
    [yield] answers. *)
Fixpoint seq_ignoring (l : list (K * V)) : Seq2 :=
  λ yield,
    match l with
    | [] => ret tt
    | (k, v) :: l' => yield k v ;;; seq_ignoring l' yield
    end.

(** [All] as an [iter.Seq2] whose [yield] works on the heap, which is how
    [Insert] and [maps.Collect] use it: the shard stays read-locked while
    [yield] runs.  The entries of a shard are read when its walk starts;
    Go leaves open which entries a walk shows when its map is written
    meanwhile, so this is used only where [yield] does not write to the
    map being walked. *)
Fixpoint yield_items (yield : K → V → GoM bool) (entries : list (K * V))
    : GoM bool :=
  match entries with
  | [] => ret true
  | (k, v) :: entries' =>
      continue <- yield k v ;;
      if continue then yield_items yield entries' else ret false
  end.

Fixpoint All_shards (yield : K → V → GoM bool) (ss : list loc) : GoM unit :=
  match ss with
  | [] => ret tt
  | shard :: ss' =>
      RLock shard ;;;
      m <- shard_items shard ;;
      content <- load_map m ;;
      continue <- yield_items yield (map_range content) ;;
      RUnlock shard ;;;
      if continue then All_shards yield ss' else ret tt
  end.

Definition All_seq (c : ConcurrentHashMap) : Seq2 :=
  λ yield, All_shards yield (shards c).

End Sequences.

(** ** Key and value types used by the package's tests *)

(** [%v] prints a string as it is. *)
#[export] Instance string_Formatter : Formatter string := λ s, s.

(** [%v] prints a boolean as [true] or [false]. *)
#[export] Instance bool_Formatter : Formatter bool :=
  λ b, if b then "true"%string else "false"%string.

#[export] Instance Z_ZeroValue : ZeroValue Z := 0.

(** One admissible iteration order: the one of [map_to_list]. *)
#[export] Instance map_to_list_order {K V} `{Countable K} : RangeOrder K V :=
  {| map_range := map_to_list; map_range_perm := λ m, reflexivity (map_to_list m) |}.

(** The [float64] values that [strconv] renders by a fixed text: the two
    zeros, the two infinities and NaN. *)
Inductive float64_special := PosZero | NegZero | PosInf | NegInf | NaN.

(** IEEE 754 comparison: the zeros are equal to each other, NaN is equal
    to nothing. *)
#[export] Instance float64_special_GoEq : GoEq float64_special :=
  λ x y, match x, y with
         | (PosZero | NegZero), (PosZero | NegZero) => true
         | PosInf, PosInf => true
         | NegInf, NegInf => true
         | _, _ => false
         end.

#[export] Instance float64_special_Formatter : Formatter float64_special :=
  λ x, match x with
       | PosZero => "0"
       | NegZero => "-0"
       | PosInf => "+Inf"
       | NegInf => "-Inf"
       | NaN => "NaN"
       end%string.

(** The heap before anything is allocated. *)
Definition empty_heap {K V} `{Countable K} : Heap K V := mkHeap ∅ ∅.

(** ** Reading a container out of the heap *)

Section Observations.
Context {K V : Type} `{Countable K}.
Context `{!Formatter K} `{!ZeroValue V} `{!RangeOrder K V}.

Local Abbreviation GoM := (M (Heap K V)).

(** The entries of the map a shard points to. *)
Definition shard_content (σ : Heap K V) (s : loc) : option (gmap K V) :=
  match shard_cells σ !! s with
  | Some sh => map_cells σ !! items sh
  | None => None
  end.

(** The heap after the map of shard cell [sh] got new entries. *)
Definition with_map (σ : Heap K V) (sh : shard) (content : gmap K V)
    : Heap K V :=
  mkHeap (shard_cells σ) (<[items sh := content]> (map_cells σ)).

(** The heap after one round of the copying loop of [Clone]: a new map
    [m'] with the entries of the source shard, and the target shard
    pointing to it. *)
Definition cloned_into (σ : Heap K V) (t : loc) (sh_t : shard)
    (content : gmap K V) : Heap K V :=
  let m' := fresh (dom (map_cells σ)) in
  mkHeap (<[t := mkShard (rw_readers sh_t) (rw_writer sh_t) m']> (shard_cells σ))
         (<[m' := content]> (map_cells σ)).

(** Nobody holds the mutex. *)
Definition unlocked (sh : shard) : Prop :=
  rw_readers sh = 0%nat ∧ rw_writer sh = false.

(** The state of a container between two calls: it has at least one
    shard and the mask the constructor computes; its shards are distinct
    objects, unlocked, each with a map of its own; and an entry sits in
    the shard its key is routed to.  The constructor establishes it for a
    shard count of at least 1 ([New_valid]); [Set] and [Delete] keep it
    ([Set_valid], [Delete_valid]), [Clone] keeps it for the source and
    establishes it for the clone ([Clone_spec]), and the other operations
    leave the heap as it was. *)
Record valid (c : ConcurrentHashMap) (σ : Heap K V) : Prop := {
  valid_nonempty : (0 < length (shards c))%nat;
  valid_mask : shardMask c = mask_of (Z.of_nat (length (shards c)));
  valid_NoDup : NoDup (shards c);
  valid_cells : ∀ s, s ∈ shards c →
    ∃ sh content, shard_cells σ !! s = Some sh ∧ unlocked sh ∧
                  map_cells σ !! items sh = Some content;
  valid_items : ∀ s1 s2 sh1 sh2, s1 ∈ shards c → s2 ∈ shards c →
    shard_cells σ !! s1 = Some sh1 → shard_cells σ !! s2 = Some sh2 →
    items sh1 = items sh2 → s1 = s2;
  valid_routed : ∀ i s content key, shards c !! i = Some s →
    shard_content σ s = Some content → is_Some (content !! key) →
    Z.to_nat (shardIndex c key) = i
}.

(** What each shard of [c] holds, in index order. *)
Definition contents (c : ConcurrentHashMap) (σ : Heap K V)
    : list (option (gmap K V)) :=
  shard_content σ <$> shards c.

(** The entries in the order a walk over all shards meets them. *)
Definition entries (c : ConcurrentHashMap) (σ : Heap K V) : list (K * V) :=
  mjoin (map_range <$> omap (shard_content σ) (shards c)).

(** Two containers that have no shard object and no map in common. *)
Definition separate (c c' : ConcurrentHashMap) (σ : Heap K V) : Prop :=
  (∀ s, s ∈ shards c → s ∉ shards c') ∧
  (∀ s s' sh sh', s ∈ shards c → s' ∈ shards c' →
     shard_cells σ !! s = Some sh → shard_cells σ !! s' = Some sh' →
     items sh ≠ items sh').

(** [key] is live: [Get] finds it. *)
Definition live (c : ConcurrentHashMap) (σ : Heap K V) (key : K) : Prop :=
  ∃ v, Get c key σ = Some ((v, true), σ).

(** A visitor that also records what it answered, call after call. *)
Definition traced {St} (f : K → V → St → St * bool)
    : K → V → list bool * St → (list bool * St) * bool :=
  λ k v '(log, st), let '(st', b) := f k v st in ((log ++ [b], st'), b).


(** A single-key write, and a sequence of them on one container. *)
Inductive mutation := MSet (key : K) (value : V) | MDelete (key : K).

Definition mutate1 (c : ConcurrentHashMap) (m : mutation) : GoM unit :=
  match m with
  | MSet key value => Set_ c key value
  | MDelete key => Delete c key
  end.

Fixpoint mutate (c : ConcurrentHashMap) (ms : list mutation) : GoM unit :=
  match ms with
  | [] => ret tt
  | m :: ms' => mutate1 c m ;;; mutate c ms'
  end.

End Observations.

Arguments mutation : clear implicits.

Section MoreObservations.
Context {K V : Type} `{Countable K}.
Context `{!Formatter K} `{!ZeroValue V} `{!RangeOrder K V}.

(** The key a single-key write is about, and what it does to the entries
    of the map it reaches. *)
Definition mutation_key (mu : mutation K V) : K :=
  match mu with MSet key _ => key | MDelete key => key end.

Definition mutation_apply (mu : mutation K V) (content : gmap K V)
    : gmap K V :=
  match mu with
  | MSet key value => <[key := value]> content
  | MDelete key => delete key content
  end.


(** The index of the shard an entry is routed to. *)
Definition entry_shard (c : ConcurrentHashMap) (kv : K * V) : nat :=
  Z.to_nat (shardIndex c kv.1).

(** The number of entries that [Range] shows. *)
Definition count_entries (c : ConcurrentHashMap) : M (Heap K V) nat :=
  Range c (λ _ _ n, (S n, true)) 0%nat.

(** The keys that [Keys] yields to a consumer that writes them down. *)
Definition collect_keys (c : ConcurrentHashMap) : M (Heap K V) (list K) :=
  Keys c (λ k ks, (ks ++ [k], true)) [].


(** The pairs that [All] yields to a consumer that writes them down. *)
Definition collect_pairs (c : ConcurrentHashMap)
    : M (Heap K V) (list (K * V)) :=
  All c (λ k v kvs, (kvs ++ [(k, v)], true)) [].

(** Two built-in maps that [maps.EqualFunc] must call equal: the same
    keys, and values that pass the test. *)
Definition maps_related (eq : V → V → bool) (c1 c2 : gmap K V) : Prop :=
  ∀ k, match c1 !! k, c2 !! k with
       | Some v1, Some v2 => eq v1 v2 = true
       | None, None => True
       | _, _ => False
       end.

(** A consumer of keys or of values that also records what it answered,
    call after call. *)
Definition traced1 {A St} (yield : A → St → St * bool)
    : A → list bool * St → (list bool * St) * bool :=
  λ a '(log, st), let '(st', b) := yield a st in ((log ++ [b], st'), b).

(** What [maps.EqualFunc] answers on two maps with the given entries. *)
Definition maps_equal_result (eq : V → V → bool) (c1 c2 : gmap K V) : bool :=
  if negb (size c1 =? size c2)%nat then false
  else forallb (λ kv, match c2 !! kv.1 with
                      | Some v2 => eq kv.2 v2
                      | None => false
                      end) (map_range c1).

End MoreObservations.

(** ** The package on an arbitrary comparable key type

    The same functions once more, for key types on which [==] is not the
    identity of values.  The built-in map of a shard is the list of its
    entries, and a key is found in it with [==] ([go_eq]): a key that is
    not equal to itself (a floating-point NaN) is never found, is never
    overwritten and is never deleted, and every assignment under it adds
    an entry.  Where [==] is the identity, these maps are the [gmap]s used
    above ([index_result_identity], [assign_identity], [delete_identity],
    [equal_result_identity]). *)

#[export] Instance float64_special_ZeroValue : ZeroValue float64_special :=
  PosZero.

Module comparable.

Record Heap (K V : Type) := mkHeap {
  shard_cells : gmap loc shard;
  map_cells : gmap loc (list (K * V))
}.
Arguments mkHeap {K V} _ _.
Arguments shard_cells {K V} _.
Arguments map_cells {K V} _.

Definition empty_heap {K V} : Heap K V := mkHeap ∅ ∅.

Section Operations.
Context {K V : Type} `{!GoEq K} `{!Formatter K} `{!ZeroValue V}.

Local Abbreviation GoM := (M (Heap K V)).

(** *** Heap cells *)

Definition load_shard (s : loc) : GoM shard :=
  λ σ, match shard_cells σ !! s with
       | Some sh => Some (sh, σ)
       | None => None
       end.

Definition store_shard (s : loc) (sh : shard) : GoM unit :=
  λ σ, match shard_cells σ !! s with
       | Some _ => Some (tt, mkHeap (<[s := sh]> (shard_cells σ)) (map_cells σ))
       | None => None
       end.

Definition load_map (m : loc) : GoM (list (K * V)) :=
  λ σ, match map_cells σ !! m with
       | Some content => Some (content, σ)
       | None => None
       end.

Definition store_map (m : loc) (content : list (K * V)) : GoM unit :=
  λ σ, match map_cells σ !! m with
       | Some _ => Some (tt, mkHeap (shard_cells σ) (<[m := content]> (map_cells σ)))
       | None => None
       end.

Definition new_shard (m : loc) : GoM loc :=
  λ σ, let s := fresh (dom (shard_cells σ)) in
       Some (s, mkHeap (<[s := mkShard 0 false m]> (shard_cells σ)) (map_cells σ)).

Definition alloc_map (content : list (K * V)) : GoM loc :=
  λ σ, let m := fresh (dom (map_cells σ)) in
       Some (m, mkHeap (shard_cells σ) (<[m := content]> (map_cells σ))).

(** *** Built-in maps and package maps *)

(** [make(map[K]V)] *)
Definition make_map : GoM loc := alloc_map [].

(** [val, ok := m[key]]: the entry whose key is [==] to [key], if there
    is one. *)
Definition index_result (content : list (K * V)) (key : K) : V * bool :=
  match List.find (λ kv, go_eq kv.1 key) content with
  | Some kv => (kv.2, true)
  | None => (zero_value, false)
  end.

Definition map_index (m : loc) (key : K) : GoM (V * bool) :=
  content <- load_map m ;;
  ret (index_result content key).

(** The entries whose key is not [==] to [key]. *)
Definition without (key : K) (content : list (K * V)) : list (K * V) :=
  List.filter (λ kv, negb (go_eq kv.1 key)) content.

(** [m[key] = value]: the entry with a key [==] to [key] is replaced (on
    the key types where equal keys can differ, the stored key is
    overwritten as well); if there is none, an entry is added. *)
Definition assign (key : K) (value : V) (content : list (K * V))
    : list (K * V) :=
  (key, value) :: without key content.

Definition map_assign (m : loc) (key : K) (value : V) : GoM unit :=
  content <- load_map m ;;
  store_map m (assign key value content).

(** [delete(m, key)] *)
Definition map_delete (m : loc) (key : K) : GoM unit :=
  content <- load_map m ;;
  store_map m (without key content).

(** [maps.Clone(m)] *)
Definition maps_Clone (m : loc) : GoM loc :=
  content <- load_map m ;;
  alloc_map content.

(** What [maps.EqualFunc] answers: same length, and every entry of the
    first map has a partner in the second, found with [==], with a value
    that passes the test. *)
Definition equal_result (eq : V → V → bool) (c1 c2 : list (K * V)) : bool :=
  if negb (length c1 =? length c2)%nat then false
  else forallb (λ kv, match List.find (λ kv2, go_eq kv2.1 kv.1) c2 with
                      | Some kv2 => eq kv.2 kv2.2
                      | None => false
                      end) c1.

Definition maps_EqualFunc (m1 m2 : loc) (eq : V → V → bool) : GoM bool :=
  c1 <- load_map m1 ;;
  c2 <- load_map m2 ;;
  ret (equal_result eq c1 c2).

(** *** sync.RWMutex, seen from one goroutine *)

Definition RLock (s : loc) : GoM unit :=
  sh <- load_shard s ;;
  if rw_writer sh then panic
  else store_shard s (mkShard (S (rw_readers sh)) (rw_writer sh) (items sh)).

Definition RUnlock (s : loc) : GoM unit :=
  sh <- load_shard s ;;
  match rw_readers sh with
  | O => panic
  | S n => store_shard s (mkShard n (rw_writer sh) (items sh))
  end.

Definition Lock (s : loc) : GoM unit :=
  sh <- load_shard s ;;
  if rw_writer sh then panic
  else match rw_readers sh with
       | O => store_shard s (mkShard O true (items sh))
       | S _ => panic
       end.

Definition Unlock (s : loc) : GoM unit :=
  sh <- load_shard s ;;
  if rw_writer sh then store_shard s (mkShard (rw_readers sh) false (items sh))
  else panic.

Definition shard_items (s : loc) : GoM loc :=
  sh <- load_shard s ;;
  ret (items sh).

(** *** NewConcurrentHashMap *)

Fixpoint new_shards (n : nat) : GoM (list loc) :=
  match n with
  | O => ret []
  | S n' =>
      m <- make_map ;;
      s <- new_shard m ;;
      rest <- new_shards n' ;;
      ret (s :: rest)
  end.

Definition NewConcurrentHashMap (shardCount : Z) : GoM ConcurrentHashMap :=
  if shardCount <? 0 then panic
  else
    shards <- new_shards (Z.to_nat shardCount) ;;
    ret {| shards := shards; shardMask := mask_of shardCount |}.

(** *** getShard *)

Definition getShard (c : ConcurrentHashMap) (key : K) : GoM loc :=
  match shards c !! Z.to_nat (shardIndex c key) with
  | Some s => ret s
  | None => panic
  end.

(** *** Get, Set, Delete *)

Definition Get (c : ConcurrentHashMap) (key : K) : GoM (V * bool) :=
  shard <- getShard c key ;;
  RLock shard ;;;
  m <- shard_items shard ;;
  r <- map_index m key ;;
  RUnlock shard ;;;
  ret r.

Definition Set_ (c : ConcurrentHashMap) (key : K) (value : V) : GoM unit :=
  shard <- getShard c key ;;
  Lock shard ;;;
  m <- shard_items shard ;;
  map_assign m key value ;;;
  Unlock shard.

Definition Delete (c : ConcurrentHashMap) (key : K) : GoM unit :=
  shard <- getShard c key ;;
  Lock shard ;;;
  m <- shard_items shard ;;
  map_delete m key ;;;
  Unlock shard.

(** *** Range and Keys *)

(** The walk meets the entries of a built-in map in the order of the
    list, which is one of the orders Go may choose. *)
Fixpoint visit_shards {St} (f : K → V → St → St * bool)
    (ss : list loc) (st : St) : GoM St :=
  match ss with
  | [] => ret st
  | shard :: ss' =>
      RLock shard ;;;
      m <- shard_items shard ;;
      content <- load_map m ;;
      let '(st', continue) := visit_items f content st in
      RUnlock shard ;;;
      if continue then visit_shards f ss' st' else ret st'
  end.

Definition Range {St} (c : ConcurrentHashMap)
    (f : K → V → St → St * bool) (st : St) : GoM St :=
  visit_shards f (shards c) st.

Fixpoint Keys_shards {St} (yield : K → St → St * bool)
    (ss : list loc) (st : St) : GoM St :=
  match ss with
  | [] => ret st
  | shard :: ss' =>
      RLock shard ;;;
      m <- shard_items shard ;;
      content <- load_map m ;;
      let '(st', continue) := yield_keys yield content st in
      RUnlock shard ;;;
      if continue then Keys_shards yield ss' st' else ret st'
  end.

Definition Keys {St} (c : ConcurrentHashMap)
    : (K → St → St * bool) → St → GoM St :=
  λ yield st, Keys_shards yield (shards c) st.

(** *** Insert *)

Definition Insert (c : ConcurrentHashMap)
    (seq : (K → V → GoM bool) → GoM unit) : GoM unit :=
  seq (λ k v, Set_ c k v ;;; ret true).

(** *** Clone *)

Definition slice_index (ss : list loc) (i : nat) : GoM loc :=
  match ss !! i with
  | Some s => ret s
  | None => panic
  end.

Definition set_shard_items (s : loc) (m : loc) : GoM unit :=
  sh <- load_shard s ;;
  store_shard s (mkShard (rw_readers sh) (rw_writer sh) m).

Fixpoint Clone_loop (newMap : ConcurrentHashMap) (i : nat)
    (ss : list loc) : GoM unit :=
  match ss with
  | [] => ret tt
  | shard :: ss' =>
      RLock shard ;;;
      target <- slice_index (shards newMap) i ;;
      m <- shard_items shard ;;
      m' <- maps_Clone m ;;
      set_shard_items target m' ;;;
      RUnlock shard ;;;
      Clone_loop newMap (S i) ss'
  end.

Definition Clone (c : ConcurrentHashMap) : GoM ConcurrentHashMap :=
  newMap <- NewConcurrentHashMap (Z.of_nat (length (shards c))) ;;
  Clone_loop newMap 0 (shards c) ;;;
  ret newMap.

(** *** EqualFunc *)

Fixpoint EqualFunc_loop (other : ConcurrentHashMap) (eq : V → V → bool)
    (i : nat) (ss : list loc) : GoM bool :=
  match ss with
  | [] => ret true
  | shard :: ss' =>
      RLock shard ;;;
      otherShard <- slice_index (shards other) i ;;
      RLock otherShard ;;;
      m1 <- shard_items shard ;;
      m2 <- shard_items otherShard ;;
      equal <- maps_EqualFunc m1 m2 eq ;;
      RUnlock otherShard ;;;
      RUnlock shard ;;;
      if negb equal then ret false
      else EqualFunc_loop other eq (S i) ss'
  end.

Definition EqualFunc (c other : ConcurrentHashMap) (eq : V → V → bool)
    : GoM bool :=
  if negb (length (shards c) =? length (shards other))%nat then ret false
  else EqualFunc_loop other eq 0 (shards c).

End Operations.

Arguments Set_ {K V _ _} c key value.

End comparable.

(** The heap with [gmap] shards that a heap with [==] shards stands for,
    on a key type with identity. *)
Definition abstraction {K V} `{Countable K} (σ : comparable.Heap K V)
    : Heap K V :=
  mkHeap (comparable.shard_cells σ) (list_to_map <$> comparable.map_cells σ).

Definition abstract_result {K V A} `{Countable K}
    (r : option (A * comparable.Heap K V)) : option (A * Heap K V) :=
  match r with
  | Some (a, σ) => Some (a, abstraction σ)
  | None => None
  end.

(** A power of two. *)
Definition is_pow2 (n : Z) : Prop := ∃ e, 0 ≤ e ∧ n = 2 ^ e.

(** ** A container to try things on

    String keys, integer values: a container of one shard, then a
    container of two shards that receives three entries. *)

Definition demo_program
    : M (Heap string Z) (ConcurrentHashMap * ConcurrentHashMap) :=
  other <- NewConcurrentHashMap 1 ;;
  c <- NewConcurrentHashMap 2 ;;
  mutate c [MSet "a" 1; MSet "b" 2; MSet "c" 3]%string ;;;
  ret (c, other).

(** The heap after the first constructor call. *)
Definition demo_heap0 : Heap string Z :=
  Eval vm_compute in
    match NewConcurrentHashMap 1 empty_heap with
    | Some (_, σ) => σ
    | None => empty_heap
    end.

Definition demo_state : option (ConcurrentHashMap * ConcurrentHashMap * Heap string Z) :=
  Eval vm_compute in demo_program empty_heap.

Definition demo_map : ConcurrentHashMap :=
  Eval vm_compute in
    match demo_state with Some (c, _, _) => c | None => mkCHM [] 0 end.


Definition demo_heap : Heap string Z :=
  Eval vm_compute in
    match demo_state with Some (_, _, σ) => σ | None => empty_heap end.

(** * Properties *)

(** ** The mask *)

Lemma land_le_r (h m : Z) : 0 ≤ m → 0 ≤ Z.land h m ≤ m.
Proof.
  intros Hm. apply Z.ldiff_le; [done|].
  apply Z.bits_inj'. intros n Hn.
  rewrite Z.ldiff_spec, Z.land_spec, Z.bits_0.
  destruct (Z.testbit h n), (Z.testbit m n); done.
Qed.

Lemma mask_of_range (n : Z) : 1 ≤ n → 0 ≤ mask_of n < n.
Proof.
  intros Hn. unfold mask_of, fnv.uint32.
  assert (Hr := Z.mod_pos_bound n (2 ^ 32) ltac:(lia)).
  destruct (decide (n mod 2 ^ 32 = 0)) as [Hz|Hz].
  - rewrite Hz. change ((0 - 1) mod 2 ^ 32) with (2 ^ 32 - 1).
    apply Z.mod_divide in Hz; [|lia]. destruct Hz as [q ->]. nia.
  - rewrite Z.mod_small by lia.
    assert (n mod 2 ^ 32 ≤ n) by (apply Z.mod_le; lia). lia.
Qed.

(** On a power of two the mask is the modulus; [uint32] makes no
    difference because a hash is below [2 ^ 32]. *)
Lemma land_mask_of_pow2 (h e : Z) :
  0 ≤ e → 0 ≤ h < 2 ^ 32 → Z.land h (mask_of (2 ^ e)) = h mod 2 ^ e.
Proof.
  intros He Hh. unfold mask_of, fnv.uint32.
  destruct (decide (e < 32)) as [Hlt|Hge].
  - assert (2 ^ e < 2 ^ 32) by (apply Z.pow_lt_mono_r; lia).
    assert (0 < 2 ^ e) by (apply Z.pow_pos_nonneg; lia).
    rewrite (Z.mod_small (2 ^ e)) by lia.
    rewrite (Z.mod_small (2 ^ e - 1)) by lia.
    replace (2 ^ e - 1) with (Z.ones e) by (rewrite Z.ones_equiv; lia).
    by apply Z.land_ones.
  - assert (2 ^ 32 ≤ 2 ^ e) by (apply Z.pow_le_mono_r; lia).
    replace (2 ^ e) with (2 ^ 32 * 2 ^ (e - 32)) at 1
      by (rewrite <- Z.pow_add_r by lia; f_equal; lia).
    rewrite Z.mul_comm, Z.mod_mul by lia.
    change ((0 - 1) mod 2 ^ 32) with (Z.ones 32).
    rewrite Z.land_ones by lia.
    rewrite (Z.mod_small h (2 ^ 32)) by lia.
    rewrite (Z.mod_small h (2 ^ e)) by lia. done.
Qed.

(** A number that shares no bit with its predecessor is a power of two. *)
Lemma land_pred_pow2 (n : Z) : 1 ≤ n → Z.land n (n - 1) = 0 → is_pow2 n.
Proof.
  intros Hn Hland. exists (Z.log2 n). split; [apply Z.log2_nonneg|].
  destruct (Z.log2_spec n ltac:(lia)) as [Hlo Hhi].
  destruct (decide (n = 2 ^ Z.log2 n)) as [|Hne]; [done|exfalso].
  assert (n ≠ 1) by (intros ->; by apply Hne).
  assert (Hlog : Z.log2 (n - 1) = Z.log2 n).
  { apply Z.log2_unique; [apply Z.log2_nonneg|].
    rewrite <- Z.add_1_r in Hhi |- *. lia. }
  assert (Hbit : Z.testbit (Z.land n (n - 1)) (Z.log2 n) = true).
  { rewrite Z.land_spec, Z.bit_log2 by lia.
    rewrite <- Hlog, Z.bit_log2 by lia. done. }
  rewrite Hland, Z.bits_0 in Hbit. done.
Qed.

Lemma fnv_Write_range (data : list Byte.byte) (h : Z) :
  0 ≤ h < 2 ^ 32 → 0 ≤ fnv.sum32a_Write h data < 2 ^ 32.
Proof.
  revert h. induction data as [|c data IH]; intros h Hh; simpl; [done|].
  apply IH. unfold fnv.uint32. apply Z.mod_pos_bound. lia.
Qed.

Lemma fnv_Sum32_range (data : list Byte.byte) : 0 ≤ fnv.Sum32 data < 2 ^ 32.
Proof. apply fnv_Write_range. unfold fnv.offset32. lia. Qed.

(** ** Single-key operations *)

Section Correctness.
Context {K V : Type} `{Countable K}.
Context `{!Formatter K} `{!ZeroValue V} `{!RangeOrder K V}.
Implicit Types (c : ConcurrentHashMap) (σ : Heap K V) (s m : loc).
Implicit Types (sh : shard) (content : gmap K V) (key : K).

Lemma heap_eta σ : mkHeap (shard_cells σ) (map_cells σ) = σ.
Proof. by destruct σ. Qed.

Lemma shard_eta sh : mkShard (rw_readers sh) (rw_writer sh) (items sh) = sh.
Proof. by destruct sh. Qed.

Lemma Get_run c σ key s sh content :
  shards c !! Z.to_nat (shardIndex c key) = Some s →
  shard_cells σ !! s = Some sh → rw_writer sh = false →
  map_cells σ !! items sh = Some content →
  Get c key σ = Some (index_result content key, σ).
Proof.
  intros Hs Hsh Hw Hm.
  unfold Get, getShard, RLock, RUnlock, shard_items, map_index,
    load_shard, store_shard, load_map, bind, ret, panic.
  repeat (simpl; rewrite ?Hs, ?Hsh, ?Hw, ?Hm, ?lookup_insert_eq).
  rewrite insert_insert_eq, <- Hw, shard_eta, insert_id by done.
  by rewrite heap_eta.
Qed.

Lemma Set_run c σ key v s sh content :
  shards c !! Z.to_nat (shardIndex c key) = Some s →
  shard_cells σ !! s = Some sh → unlocked sh →
  map_cells σ !! items sh = Some content →
  Set_ c key v σ = Some (tt, with_map σ sh (<[key := v]> content)).
Proof.
  intros Hs Hsh [Hr Hw] Hm.
  unfold Set_, getShard, Lock, Unlock, shard_items, map_assign,
    load_shard, store_shard, load_map, store_map, bind, ret, panic.
  repeat (simpl; rewrite ?Hs, ?Hsh, ?Hw, ?Hr, ?Hm, ?lookup_insert_eq).
  unfold with_map. do 3 f_equal.
  rewrite insert_insert_eq, <- Hw, <- Hr, shard_eta. by apply insert_id.
Qed.

Lemma Delete_run c σ key s sh content :
  shards c !! Z.to_nat (shardIndex c key) = Some s →
  shard_cells σ !! s = Some sh → unlocked sh →
  map_cells σ !! items sh = Some content →
  Delete c key σ = Some (tt, with_map σ sh (delete key content)).
Proof.
  intros Hs Hsh [Hr Hw] Hm.
  unfold Delete, getShard, Lock, Unlock, shard_items, map_delete,
    load_shard, store_shard, load_map, store_map, bind, ret, panic.
  repeat (simpl; rewrite ?Hs, ?Hsh, ?Hw, ?Hr, ?Hm, ?lookup_insert_eq).
  unfold with_map. do 3 f_equal.
  rewrite insert_insert_eq, <- Hw, <- Hr, shard_eta. by apply insert_id.
Qed.

(** *** The invariant and the shard a key is routed to *)

Lemma shardIndex_range c key :
  (0 < length (shards c))%nat →
  shardMask c = mask_of (Z.of_nat (length (shards c))) →
  (Z.to_nat (shardIndex c key) < length (shards c))%nat.
Proof.
  intros Hlen Hmask. unfold shardIndex. rewrite Hmask.
  pose proof (mask_of_range (Z.of_nat (length (shards c))) ltac:(lia)).
  pose proof (land_le_r (keyHash key)
    (mask_of (Z.of_nat (length (shards c)))) ltac:(lia)).
  lia.
Qed.

Lemma valid_route c σ key :
  valid c σ →
  ∃ s sh content,
    shards c !! Z.to_nat (shardIndex c key) = Some s ∧
    shard_cells σ !! s = Some sh ∧ unlocked sh ∧
    map_cells σ !! items sh = Some content.
Proof.
  intros Hv.
  destruct (lookup_lt_is_Some_2 (shards c) (Z.to_nat (shardIndex c key)))
    as [s Hs].
  { apply shardIndex_range; apply Hv. }
  destruct (valid_cells _ _ Hv s) as (sh & content & ? & ? & ?).
  { by eapply list_elem_of_lookup_2. }
  by exists s, sh, content.
Qed.

Lemma shard_content_with_map σ sh content' s' sh' :
  shard_cells σ !! s' = Some sh' →
  shard_content (with_map σ sh content') s' =
    if decide (items sh' = items sh) then Some content'
    else shard_content σ s'.
Proof.
  intros Hsh'. unfold shard_content, with_map. simpl. rewrite Hsh'.
  case_decide as Hi.
  - by rewrite Hi, lookup_insert_eq.
  - by rewrite lookup_insert_ne.
Qed.

(** Replacing the entries of one shard keeps the invariant, when the
    new keys belong to that shard. *)
Lemma valid_with_map c σ i s sh content' :
  valid c σ → shards c !! i = Some s → shard_cells σ !! s = Some sh →
  (∀ key, is_Some (content' !! key) → Z.to_nat (shardIndex c key) = i) →
  valid c (with_map σ sh content').
Proof.
  intros Hv Hs Hsh Hkeys.
  assert (Hin : s ∈ shards c) by by eapply list_elem_of_lookup_2.
  split; try apply Hv.
  - intros s' Hs'. destruct (valid_cells _ _ Hv s' Hs')
      as (sh' & content & Hc & Hu & Hm).
    destruct (decide (items sh' = items sh)) as [Heq|Hne].
    + exists sh', content'. simpl. by rewrite Heq, lookup_insert_eq.
    + exists sh', content. simpl. by rewrite lookup_insert_ne.
  - intros j s' content key Hj Hcont Hkey.
    assert (Hin' : s' ∈ shards c) by by eapply list_elem_of_lookup_2.
    destruct (valid_cells _ _ Hv s' Hin') as (sh' & content0 & Hc & Hu & Hm).
    rewrite (shard_content_with_map _ _ _ _ _ Hc) in Hcont.
    case_decide as Hi.
    + assert (s' = s) as -> by by eapply (valid_items _ _ Hv).
      injection Hcont as <-.
      assert (j = i) as ->; [|by apply Hkeys].
      eapply NoDup_lookup; [apply Hv|done..].
    + by eapply (valid_routed _ _ Hv).
Qed.

(** *** Construction *)

(** What the allocation loop leaves behind: [n] new shard objects, all
    different, unlocked, each pointing to an empty map of its own;
    nothing that existed before is touched. *)
Lemma new_shards_spec (n : nat) σ :
  ∃ ss σ',
    new_shards n σ = Some (ss, σ') ∧ length ss = n ∧ NoDup ss ∧
    shard_cells σ ⊆ shard_cells σ' ∧ map_cells σ ⊆ map_cells σ' ∧
    (∀ s, s ∈ ss → (s ∉ dom (shard_cells σ)) ∧
       ∃ m, shard_cells σ' !! s = Some (mkShard 0 false m) ∧
            (m ∉ dom (map_cells σ)) ∧ map_cells σ' !! m = Some ∅) ∧
    (∀ s1 s2 sh1 sh2, s1 ∈ ss → s2 ∈ ss →
       shard_cells σ' !! s1 = Some sh1 → shard_cells σ' !! s2 = Some sh2 →
       items sh1 = items sh2 → s1 = s2).
Proof.
  revert σ. induction n as [|n IH]; intros σ.
  { exists [], σ. split_and!; try done.
    - constructor.
    - intros s Hs. by apply elem_of_nil in Hs.
    - intros s1 ???? Hs. by apply elem_of_nil in Hs. }
  set (m := fresh (dom (map_cells σ))).
  set (s := fresh (dom (shard_cells σ))).
  set (σ2 := mkHeap (<[s := mkShard 0 false m]> (shard_cells σ))
                    (<[m := ∅]> (map_cells σ))).
  assert (Hm : map_cells σ !! m = None)
    by (apply not_elem_of_dom, is_fresh).
  assert (Hs : shard_cells σ !! s = None)
    by (apply not_elem_of_dom, is_fresh).
  destruct (IH σ2) as (ss & σ' & Hrun & Hlen & Hnd & Hsub & Hmsub & Hnew & Hinj).
  assert (Hs' : shard_cells σ' !! s = Some (mkShard 0 false m)).
  { eapply lookup_weaken; [|exact Hsub]. apply lookup_insert_eq. }
  assert (Hm' : map_cells σ' !! m = Some ∅).
  { eapply lookup_weaken; [|exact Hmsub]. apply lookup_insert_eq. }
  assert (Hfresh : s ∉ ss).
  { intros Hin. pose proof (Hnew s Hin) as [Hdom _]. apply Hdom.
    apply elem_of_dom. simpl. rewrite lookup_insert_eq. by eexists. }
  exists (s :: ss), σ'. split_and!.
  - simpl. unfold bind, make_map, alloc_map, new_shard, ret. simpl.
    fold m. fold s. fold σ2. by rewrite Hrun.
  - simpl. by rewrite Hlen.
  - by constructor.
  - etrans; [|exact Hsub]. by apply insert_subseteq.
  - etrans; [|exact Hmsub]. by apply insert_subseteq.
  - intros s0 [Hs0|Hin]%elem_of_cons.
    + rewrite Hs0.
      split; [by apply not_elem_of_dom|]. exists m. split_and!; try done.
      by apply not_elem_of_dom.
    + pose proof (Hnew s0 Hin) as (Hdom & m0 & Hc & Hmd & Hmc). split.
      * intros Hd. apply Hdom. simpl. rewrite dom_insert.
        apply elem_of_union. by right.
      * exists m0. split_and!; try done.
        intros Hd. apply Hmd. simpl. rewrite dom_insert.
        apply elem_of_union. by right.
  - assert (Hother : ∀ s0 sh0, s0 ∈ ss → shard_cells σ' !! s0 = Some sh0 →
              items sh0 ≠ m).
    { intros s0 sh0 Hin Hc Heq.
      pose proof (Hnew s0 Hin) as (_ & m0 & Hc0 & Hmd & _).
      rewrite Hc in Hc0. injection Hc0 as ->. simpl in Heq. subst m0.
      apply Hmd. simpl. rewrite dom_insert.
      apply elem_of_union. left. by apply elem_of_singleton. }
    intros s1 s2 sh1 sh2 [E1|Hin1]%elem_of_cons [E2|Hin2]%elem_of_cons
      Hc1 Hc2 Heq.
    + by rewrite E1, E2.
    + rewrite E1, Hs' in Hc1. injection Hc1 as <-. simpl in Heq.
      by destruct (Hother s2 sh2 Hin2 Hc2).
    + rewrite E2, Hs' in Hc2. injection Hc2 as <-. simpl in Heq.
      by destruct (Hother s1 sh1 Hin1 Hc1).
    + by eapply Hinj.
Qed.

(** A constructor call with a positive count: the container it returns
    satisfies the invariant, all its shards are new and empty, and the
    rest of the heap is as before. *)
Lemma New_valid (n : Z) σ :
  1 ≤ n →
  ∃ c σ',
    NewConcurrentHashMap n σ = Some (c, σ') ∧ valid c σ' ∧
    length (shards c) = Z.to_nat n ∧ shardMask c = mask_of n ∧
    (∀ s, s ∈ shards c → shard_content σ' s = Some ∅) ∧
    shard_cells σ ⊆ shard_cells σ' ∧ map_cells σ ⊆ map_cells σ' ∧
    (∀ s, s ∈ shards c → (s ∉ dom (shard_cells σ)) ∧
       ∃ sh, shard_cells σ' !! s = Some sh ∧
             items sh ∉ dom (map_cells σ)).
Proof.
  intros Hn.
  destruct (new_shards_spec (Z.to_nat n) σ)
    as (ss & σ' & Hrun & Hlen & Hnd & Hsub & Hmsub & Hnew & Hinj).
  exists (mkCHM ss (mask_of n)), σ'.
  assert (Hempty : ∀ s, s ∈ ss → shard_content σ' s = Some ∅).
  { intros s Hs. pose proof (Hnew s Hs) as (_ & m & Hc & _ & Hm).
    unfold shard_content. by rewrite Hc. }
  split_and!; try done.
  - unfold NewConcurrentHashMap, bind, ret.
    destruct (Z.ltb_spec n 0); [lia|]. by rewrite Hrun.
  - split; simpl; try done.
    + lia.
    + by rewrite Hlen, Z2Nat.id by lia.
    + intros s Hs. pose proof (Hnew s Hs) as (_ & m & Hc & _ & Hm).
      by exists (mkShard 0 false m), ∅.
    + intros i s content key Hi Hcont [v Hv].
      rewrite Hempty in Hcont by by eapply list_elem_of_lookup_2.
      injection Hcont as <-. by rewrite lookup_empty in Hv.
  - intros s Hs. pose proof (Hnew s Hs) as (Hd & m & Hc & Hmd & _).
    split; [done|]. by exists (mkShard 0 false m).
Qed.

Lemma keyHash_range key : 0 ≤ keyHash key < 2 ^ 32.
Proof. apply fnv_Sum32_range. Qed.

(** C3 (amended): construction with a negative count panics in [make] and
    returns nothing; with count 0 it returns a container that has no
    shard and the mask [2^32 - 1], on which routing any key panics; with
    a count of at least 1 it returns a container of exactly that many
    new, empty, unlocked shards. *)
Theorem C3_construction (n : Z) σ :
  (n < 0 → NewConcurrentHashMap n σ = None) ∧
  (NewConcurrentHashMap 0 σ = Some (mkCHM [] (2 ^ 32 - 1), σ) ∧
   ∀ key, getShard (mkCHM [] (2 ^ 32 - 1)) key σ = None) ∧
  (1 ≤ n →
   ∃ c σ', NewConcurrentHashMap n σ = Some (c, σ') ∧
           length (shards c) = Z.to_nat n ∧
           (∀ s, s ∈ shards c → shard_content σ' s = Some ∅) ∧
           valid c σ').
Proof.
  split_and!.
  - intros Hn. unfold NewConcurrentHashMap.
    by destruct (Z.ltb_spec n 0); [|lia].
  - done.
  - intros key. by unfold getShard.
  - intros Hn.
    destruct (New_valid n σ Hn) as (c & σ' & Hrun & Hv & Hlen & _ & He & _).
    by exists c, σ'.
Qed.

(** C2 (amended): every shard count of at least 1 is accepted, power of
    two or not, and the router reduces the hash by the bit mask
    [uint32(shardCount) - 1]; the index lies in [0, shardCount); it is
    the hash modulo the shard count when the count is a power of two,
    and for any other count below [2^32] some 32-bit hash is masked to
    an index that differs from its remainder. *)
Theorem C2_mask_routing (n : Z) σ :
  1 ≤ n →
  ∃ c σ',
    NewConcurrentHashMap n σ = Some (c, σ') ∧
    (∀ key, shardIndex c key = Z.land (keyHash key) (mask_of n) ∧
            0 ≤ shardIndex c key < n) ∧
    (is_pow2 n → ∀ key, shardIndex c key = keyHash key mod n) ∧
    (n < 2 ^ 32 → ¬ is_pow2 n →
     ∃ h, 0 ≤ h < 2 ^ 32 ∧ Z.land h (mask_of n) ≠ h mod n).
Proof.
  intros Hn.
  destruct (New_valid n σ Hn) as (c & σ' & Hrun & Hv & Hlen & Hmask & _).
  exists c, σ'. split_and!; [done|..].
  - intros key. unfold shardIndex. rewrite Hmask. split; [done|].
    pose proof (mask_of_range n Hn).
    pose proof (land_le_r (keyHash key) (mask_of n) ltac:(lia)). lia.
  - intros (e & He & ->) key. unfold shardIndex. rewrite Hmask.
    apply land_mask_of_pow2; [done|apply keyHash_range].
  - intros Hlt Hnp. exists n. split; [lia|].
    rewrite Z_mod_same_full. intros Hland. apply Hnp.
    apply land_pred_pow2; [done|].
    unfold mask_of, fnv.uint32 in Hland.
    by rewrite (Z.mod_small n), (Z.mod_small (n - 1)) in Hland by lia.
Qed.

(** *** Set, Delete and Get *)

Lemma with_map_id σ sh content :
  map_cells σ !! items sh = Some content → with_map σ sh content = σ.
Proof.
  intros Hm. unfold with_map. rewrite insert_id by done. apply heap_eta.
Qed.

Lemma with_map_twice σ sh content1 content2 :
  with_map (with_map σ sh content1) sh content2 = with_map σ sh content2.
Proof. unfold with_map. simpl. by rewrite insert_insert_eq. Qed.

Lemma Set_valid c σ key v :
  valid c σ →
  ∃ s sh content,
    shards c !! Z.to_nat (shardIndex c key) = Some s ∧
    shard_cells σ !! s = Some sh ∧ unlocked sh ∧
    map_cells σ !! items sh = Some content ∧
    Set_ c key v σ = Some (tt, with_map σ sh (<[key := v]> content)) ∧
    valid c (with_map σ sh (<[key := v]> content)).
Proof.
  intros Hv. destruct (valid_route c σ key Hv) as (s & sh & content & Hs & Hc & Hu & Hm).
  exists s, sh, content. split_and!; try done.
  - by apply Set_run with s.
  - eapply valid_with_map; try done.
    intros key' [v' Hk]. destruct (decide (key' = key)) as [->|Hne]; [done|].
    rewrite lookup_insert_ne in Hk by done.
    eapply (valid_routed _ _ Hv); [done| |by eexists].
    unfold shard_content. by rewrite Hc.
Qed.

Lemma Delete_valid c σ key :
  valid c σ →
  ∃ s sh content,
    shards c !! Z.to_nat (shardIndex c key) = Some s ∧
    shard_cells σ !! s = Some sh ∧ unlocked sh ∧
    map_cells σ !! items sh = Some content ∧
    Delete c key σ = Some (tt, with_map σ sh (delete key content)) ∧
    valid c (with_map σ sh (delete key content)).
Proof.
  intros Hv. destruct (valid_route c σ key Hv) as (s & sh & content & Hs & Hc & Hu & Hm).
  exists s, sh, content. split_and!; try done.
  - by apply Delete_run with s.
  - eapply valid_with_map; try done.
    intros key' [v' Hk]. destruct (decide (key' = key)) as [->|Hne].
    { by rewrite lookup_delete_eq in Hk. }
    rewrite lookup_delete_ne in Hk by done.
    eapply (valid_routed _ _ Hv); [done| |by eexists].
    unfold shard_content. by rewrite Hc.
Qed.

Lemma Get_valid c σ key :
  valid c σ →
  ∃ s sh content,
    shards c !! Z.to_nat (shardIndex c key) = Some s ∧
    shard_cells σ !! s = Some sh ∧
    map_cells σ !! items sh = Some content ∧
    Get c key σ = Some (index_result content key, σ).
Proof.
  intros Hv. destruct (valid_route c σ key Hv) as (s & sh & content & Hs & Hc & Hu & Hm).
  exists s, sh, content. split_and!; try done.
  apply Get_run with s sh; try done. apply Hu.
Qed.

(** [Get] of [key'] after the map of one shard was replaced by a map
    that agrees with the old one at [key']. *)
Lemma Get_with_map c σ key' s sh content content2 :
  valid c σ → s ∈ shards c → shard_cells σ !! s = Some sh →
  map_cells σ !! items sh = Some content →
  content2 !! key' = content !! key' →
  ∃ r, Get c key' σ = Some (r, σ) ∧
       Get c key' (with_map σ sh content2) = Some (r, with_map σ sh content2).
Proof.
  intros Hv Hin Hc Hm Hagree.
  destruct (valid_route c σ key' Hv) as (s' & sh' & content' & Hs' & Hc' & Hu' & Hm').
  exists (index_result content' key'). split.
  { apply Get_run with s' sh'; try done. apply Hu'. }
  destruct (decide (items sh' = items sh)) as [Heq|Hne].
  - assert (s' = s) as ->.
    { eapply (valid_items _ _ Hv); try done. by eapply list_elem_of_lookup_2. }
    assert (sh' = sh) as -> by congruence.
    assert (content' = content) as -> by congruence.
    replace (index_result content key') with (index_result content2 key')
      by (unfold index_result; by rewrite Hagree).
    apply Get_run with s sh; try done; [apply Hu'|].
    simpl. by rewrite lookup_insert_eq.
  - apply Get_run with s' sh'; try done; [apply Hu'|].
    simpl. by rewrite lookup_insert_ne.
Qed.


(** C5: after [Delete(k)], [Get(k)] reports that the key is absent (and
    gives the zero value); [Delete] of a key that is absent succeeds and
    leaves the heap, hence the contents, as it was; this holds in
    particular for a second [Delete] of the same key. *)
Theorem C5_Delete c σ key :
  valid c σ →
  ∃ σ', Delete c key σ = Some (tt, σ') ∧
        Get c key σ' = Some ((zero_value, false), σ') ∧
        (¬ live c σ key → σ' = σ) ∧
        Delete c key σ' = Some (tt, σ').
Proof.
  intros Hv.
  destruct (Delete_valid c σ key Hv) as (s & sh & content & Hs & Hc & Hu & Hm & Hrun & Hv').
  eexists. split_and!; [exact Hrun|..].
  - replace (zero_value, false) with (index_result (delete key content) key)
      by (unfold index_result; by rewrite lookup_delete_eq).
    apply Get_run with s sh; try done; [apply Hu|].
    simpl. by rewrite lookup_insert_eq.
  - intros Hlive. apply with_map_id. rewrite Hm. f_equal.
    symmetry. apply delete_id. destruct (content !! key) as [v|] eqn:Hk; [|done].
    destruct Hlive. exists v.
    replace (v, true) with (index_result content key)
      by (unfold index_result; by rewrite Hk).
    apply Get_run with s sh; try done. apply Hu.
  - rewrite <- (with_map_twice σ sh (delete key content) (delete key content)) at 2.
    rewrite <- (delete_delete_eq content key) at 3.
    apply Delete_run with s; try done.
    simpl. by rewrite lookup_insert_eq.
Qed.

(** C10: a [Set] or [Delete] of [key] does not change what [Get] returns
    for any other key. *)
Theorem C10_frame c σ key key' v :
  valid c σ → key' ≠ key →
  (∃ σ' r, Set_ c key v σ = Some (tt, σ') ∧
           Get c key' σ = Some (r, σ) ∧ Get c key' σ' = Some (r, σ')) ∧
  (∃ σ' r, Delete c key σ = Some (tt, σ') ∧
           Get c key' σ = Some (r, σ) ∧ Get c key' σ' = Some (r, σ')).
Proof.
  intros Hv Hne. split.
  - destruct (Set_valid c σ key v Hv) as (s & sh & content & Hs & Hc & Hu & Hm & Hrun & _).
    destruct (Get_with_map c σ key' s sh content (<[key := v]> content))
      as (r & Hg & Hg'); try done.
    + by eapply list_elem_of_lookup_2.
    + by rewrite lookup_insert_ne.
    + by eexists _, r.
  - destruct (Delete_valid c σ key Hv) as (s & sh & content & Hs & Hc & Hu & Hm & Hrun & _).
    destruct (Get_with_map c σ key' s sh content (delete key content))
      as (r & Hg & Hg'); try done.
    + by eapply list_elem_of_lookup_2.
    + by rewrite lookup_delete_ne.
    + by eexists _, r.
Qed.

(** *** Walking the shards *)

Lemma visit_items_app {St} (f : K → V → St → St * bool) l1 l2 st :
  visit_items f (l1 ++ l2) st =
    let '(st', continue) := visit_items f l1 st in
    if continue then visit_items f l2 st' else (st', false).
Proof.
  revert st. induction l1 as [|[k v] l1 IH]; intros st; simpl.
  { by destruct (visit_items f l2 st). }
  destruct (f k v st) as [st1 []]; [apply IH|done].
Qed.

(** The two nested loops are one early-exit walk over the entries of all
    shards, and they give back the heap as they found it. *)
Lemma visit_shards_run {St} (f : K → V → St → St * bool) ss st σ :
  (∀ s, s ∈ ss → ∃ sh content, shard_cells σ !! s = Some sh ∧
     rw_writer sh = false ∧ map_cells σ !! items sh = Some content) →
  visit_shards f ss st σ =
    Some ((visit_items f
             (mjoin (map_range <$> omap (shard_content σ) ss)) st).1, σ).
Proof.
  revert st. induction ss as [|s ss IH]; intros st Hss; [done|].
  destruct (Hss s) as (sh & content & Hc & Hw & Hm); [by left|].
  assert (Hcont : shard_content σ s = Some content)
    by (unfold shard_content; by rewrite Hc).
  simpl omap. rewrite Hcont. simpl fmap. simpl mjoin.
  rewrite visit_items_app.
  simpl visit_shards.
  unfold RLock, RUnlock, shard_items, load_shard, store_shard, load_map,
    bind, ret, panic.
  repeat (simpl; rewrite ?Hc, ?Hw, ?Hm, ?lookup_insert_eq).
  destruct (visit_items f (map_range content) st) as [st1 continue].
  repeat (simpl; rewrite ?Hc, ?Hw, ?Hm, ?lookup_insert_eq).
  rewrite insert_insert_eq, <- Hw, shard_eta, insert_id, heap_eta by done.
  destruct continue; [|done].
  apply IH. intros s' Hs'. apply Hss. by right.
Qed.

Lemma valid_readable c σ s :
  valid c σ → s ∈ shards c →
  ∃ sh content, shard_cells σ !! s = Some sh ∧
    rw_writer sh = false ∧ map_cells σ !! items sh = Some content.
Proof.
  intros Hv Hs.
  destruct (valid_cells _ _ Hv s Hs) as (sh & content & ? & [? ?] & ?).
  by exists sh, content.
Qed.

Lemma Range_run {St} c σ (f : K → V → St → St * bool) st :
  valid c σ →
  Range c f st σ = Some ((visit_items f (entries c σ) st).1, σ).
Proof.
  intros Hv. apply visit_shards_run. intros s. by apply valid_readable.
Qed.

(** What a traced visitor has recorded when the walk ends: only [true]
    answers if the walk ran to the end of the list, and otherwise some
    [true] answers followed by the one [false] that stopped it. *)
Lemma visit_items_traced {St} (f : K → V → St → St * bool) l log0 st :
  ∃ log st' continue,
    visit_items (traced f) l (log0, st) = ((log0 ++ log, st'), continue) ∧
    if continue then log = replicate (length l) true
    else ∃ n, (n < length l)%nat ∧ log = replicate n true ++ [false].
Proof.
  revert log0 st. induction l as [|[k v] l IH]; intros log0 st.
  { exists [], st, true. simpl. by rewrite app_nil_r. }
  simpl. destruct (f k v st) as [st1 b] eqn:Hf. destruct b.
  - destruct (IH (log0 ++ [true]) st1) as (log & st' & continue & Hrun & Hlog).
    exists (true :: log), st', continue. rewrite Hrun. split.
    { by rewrite <- app_assoc. }
    destruct continue; [by rewrite Hlog|].
    destruct Hlog as (n & Hn & ->). exists (S n). split; [simpl; lia|done].
  - exists [false], st1, false. split; [done|].
    exists 0%nat. split; [simpl; lia|done].
Qed.



(** *** The entries of a container *)

Lemma elem_of_map_range content k v :
  (k, v) ∈ map_range content ↔ content !! k = Some v.
Proof. rewrite map_range_perm. apply elem_of_map_to_list. Qed.

Lemma elem_of_shard_entries σ ss k v :
  (k, v) ∈ mjoin (map_range <$> omap (shard_content σ) ss) ↔
  ∃ s content, s ∈ ss ∧ shard_content σ s = Some content ∧
               content !! k = Some v.
Proof.
  rewrite list_elem_of_join. split.
  - intros (l & Hkv & Hl). apply list_elem_of_fmap in Hl as (content & -> & Hc).
    apply list_elem_of_omap in Hc as (s & Hs & Hc).
    exists s, content. by rewrite <- elem_of_map_range.
  - intros (s & content & Hs & Hc & Hk). exists (map_range content). split.
    + by apply elem_of_map_range.
    + apply list_elem_of_fmap. exists content. split; [done|].
      apply list_elem_of_omap. by exists s.
Qed.

Lemma NoDup_shard_entries σ ss :
  NoDup ss →
  (∀ s1 s2 (x1 x2 : gmap K V) k, s1 ∈ ss → s2 ∈ ss →
     shard_content σ s1 = Some x1 → shard_content σ s2 = Some x2 →
     is_Some (x1 !! k) → is_Some (x2 !! k) → s1 = s2) →
  NoDup (mjoin (map_range <$> omap (shard_content σ) ss)).*1.
Proof.
  induction ss as [|s ss IH]; intros Hnd Hdisj; [constructor|].
  apply NoDup_cons in Hnd as [Hs Hnd].
  assert (IH' : NoDup (mjoin (map_range <$> omap (shard_content σ) ss)).*1).
  { apply IH; [done|]. intros s1 s2 ??? H1 H2. apply Hdisj; by right. }
  simpl omap. destruct (shard_content σ s) as [content|] eqn:Hc; [|done].
  simpl. rewrite fmap_app. apply NoDup_app. split_and!; [|  |done].
  - rewrite map_range_perm. apply NoDup_fst_map_to_list.
  - intros k Hk1 Hk2.
    apply list_elem_of_fmap in Hk1 as ([k1 v1] & -> & Hk1).
    apply list_elem_of_fmap in Hk2 as ([k2 v2] & Hk & Hk2).
    simpl in Hk. subst k2. apply elem_of_map_range in Hk1.
    apply elem_of_shard_entries in Hk2 as (s2 & x2 & Hs2 & Hc2 & Hk2).
    assert (s = s2) as <-; [|done].
    eapply (Hdisj s s2 content x2 k1); try done; [by left|by right|..];
      by eexists.
Qed.

Lemma NoDup_entries_keys c σ : valid c σ → NoDup (entries c σ).*1.
Proof.
  intros Hv. apply NoDup_shard_entries; [apply Hv|].
  intros s1 s2 x1 x2 k Hs1 Hs2 Hc1 Hc2 Hk1 Hk2.
  apply list_elem_of_lookup_1 in Hs1 as [i1 Hi1].
  apply list_elem_of_lookup_1 in Hs2 as [i2 Hi2].
  pose proof (valid_routed _ _ Hv i1 s1 x1 k Hi1 Hc1 Hk1) as E1.
  pose proof (valid_routed _ _ Hv i2 s2 x2 k Hi2 Hc2 Hk2) as E2.
  congruence.
Qed.

Lemma live_iff_entries c σ key :
  valid c σ → live c σ key ↔ key ∈ (entries c σ).*1.
Proof.
  intros Hv.
  destruct (Get_valid c σ key Hv) as (s & sh & content & Hs & Hc & Hm & Hget).
  assert (Hcont : shard_content σ s = Some content)
    by (unfold shard_content; by rewrite Hc).
  split.
  - intros [v Hlive]. rewrite Hget in Hlive. injection Hlive as Hr.
    unfold index_result in Hr.
    destruct (content !! key) as [v'|] eqn:Hk; [|done].
    apply list_elem_of_fmap. exists (key, v'). split; [done|].
    apply elem_of_shard_entries. exists s, content. split_and!; try done.
    by eapply list_elem_of_lookup_2.
  - intros Hin. apply list_elem_of_fmap in Hin as ([k v] & -> & Hin).
    apply elem_of_shard_entries in Hin as (s' & content' & Hs' & Hc' & Hk).
    apply list_elem_of_lookup_1 in Hs' as [i Hi].
    pose proof (valid_routed _ _ Hv i s' content' k Hi Hc' ltac:(by eexists)) as E.
    simpl in *. rewrite E, Hi in Hs. injection Hs as ->.
    rewrite Hcont in Hc'. injection Hc' as <-.
    exists v. rewrite Hget. unfold index_result. by rewrite Hk.
Qed.

(** The number of entries a walk meets is the number of live keys. *)
Lemma length_entries c σ ks :
  valid c σ → NoDup ks → (∀ key, key ∈ ks ↔ live c σ key) →
  length (entries c σ) = length ks.
Proof.
  intros Hv Hnd Hks. rewrite <- (length_fmap fst).
  apply Permutation_length, NoDup_Permutation;
    [by apply NoDup_entries_keys|done|].
  intros key. by rewrite Hks, live_iff_entries.
Qed.

(** C7: on a container with [N] live keys (any duplicate-free list [ks]
    of exactly the live keys has length [N]) [Range] returns, leaves the
    heap as it was, and calls the visitor at most [N] times; if the
    visitor answered [true] every time it was called exactly [N] times;
    and a call that answers [false] is the last call: no further entry
    of this shard or of a later shard is visited. *)
Theorem C7_Range {St} c σ (f : K → V → St → St * bool) st ks :
  valid c σ → NoDup ks → (∀ key, key ∈ ks ↔ live c σ key) →
  ∃ log st',
    Range c (traced f) ([], st) σ = Some ((log, st'), σ) ∧
    (length log ≤ length ks)%nat ∧
    ((∀ b, b ∈ log → b = true) → length log = length ks) ∧
    ((∀ k v st, (f k v st).2 = true) → length log = length ks) ∧
    (∀ i, log !! i = Some false → S i = length log).
Proof.
  intros Hv Hnd Hks.
  rewrite <- (length_entries c σ ks Hv Hnd Hks).
  rewrite (Range_run c σ (traced f) ([], st) Hv).
  destruct (visit_items_traced f (entries c σ) [] st)
    as (log & st' & continue & Hrun & Hlog).
  rewrite Hrun. exists log, st'. split; [done|].
  destruct continue.
  - subst log. rewrite length_replicate. split_and!; try done.
    intros i Hi. apply lookup_replicate in Hi as [? _]. done.
  - destruct Hlog as (n & Hn & ->).
    assert (Hfalse : false ∈ replicate n true ++ [false]).
    { apply elem_of_app. right. by left. }
    rewrite length_app, length_replicate. simpl. split_and!.
    + lia.
    + intros Hall. by specialize (Hall false Hfalse).
    + intros Hall. exfalso. clear Hfalse.
      assert (Hgen : ∀ l log0 st0,
        (visit_items (traced f) l (log0, st0)).2 = true).
      { induction l as [|[k v] l IHl]; intros log0 st0; [done|].
        simpl. specialize (Hall k v st0).
        destruct (f k v st0) as [st1 b]. simpl in Hall. subst b. apply IHl. }
      specialize (Hgen (entries c σ) [] st). by rewrite Hrun in Hgen.
    + intros i Hi. destruct (decide (i < n)%nat) as [Hlt|Hge].
      * rewrite lookup_app_l in Hi by (rewrite length_replicate; lia).
        apply lookup_replicate in Hi as [? _]. done.
      * apply lookup_lt_Some in Hi.
        rewrite length_app, length_replicate in Hi. simpl in Hi. lia.
Qed.

(** *** Overwriting *)



(** The state after a [Set], and what it holds for the key. *)
Lemma Set_live c σ key v :
  valid c σ →
  ∃ s sh content,
    shards c !! Z.to_nat (shardIndex c key) = Some s ∧
    shard_cells σ !! s = Some sh ∧
    map_cells σ !! items sh = Some content ∧
    Set_ c key v σ = Some (tt, with_map σ sh (<[key := v]> content)) ∧
    valid c (with_map σ sh (<[key := v]> content)) ∧
    Get c key (with_map σ sh (<[key := v]> content)) =
      Some ((v, true), with_map σ sh (<[key := v]> content)).
Proof.
  intros Hv.
  destruct (Set_valid c σ key v Hv)
    as (s & sh & content & Hs & Hc & Hu & Hm & Hrun & Hv').
  exists s, sh, content. split_and!; try done.
  replace (v, true) with (index_result (<[key := v]> content) key)
    by (unfold index_result; by rewrite lookup_insert_eq).
  apply Get_run with s sh; try done; [apply Hu|].
  simpl. by rewrite lookup_insert_eq.
Qed.


(** *** Clone *)

Lemma Clone_loop_cons newMap (i : nat) s ss σ sh content t sh_t :
  shard_cells σ !! s = Some sh → rw_writer sh = false →
  map_cells σ !! items sh = Some content →
  shards newMap !! i = Some t → shard_cells σ !! t = Some sh_t → t ≠ s →
  Clone_loop newMap i (s :: ss) σ =
    Clone_loop newMap (S i) ss (cloned_into σ t sh_t content).
Proof.
  intros Hc Hw Hm Ht Hct Hne. simpl Clone_loop.
  unfold RLock, RUnlock, slice_index, shard_items, maps_Clone, alloc_map,
    set_shard_items, load_shard, store_shard, load_map, bind, ret, panic.
  repeat (simpl; rewrite ?Hc, ?Hw, ?Hm, ?Ht, ?Hct, ?lookup_insert_eq,
            ?(lookup_insert_ne _ s t), ?(lookup_insert_ne _ t s) by done).
  f_equal. unfold cloned_into. f_equal.
  rewrite (insert_insert_ne _ s t) by done.
  rewrite insert_insert_eq, <- Hw, shard_eta.
  rewrite (insert_insert_ne _ t s) by done.
  apply insert_id. by rewrite lookup_insert_ne.
Qed.

Lemma cloned_into_other σ t sh_t content x sh (cx : gmap K V) :
  x ≠ t → shard_cells σ !! x = Some sh → map_cells σ !! items sh = Some cx →
  shard_cells (cloned_into σ t sh_t content) !! x = Some sh ∧
  map_cells (cloned_into σ t sh_t content) !! items sh = Some cx.
Proof.
  intros Hne Hc Hm. unfold cloned_into. simpl. split.
  - by rewrite lookup_insert_ne.
  - rewrite lookup_insert_ne; [done|]. intros Heq.
    apply (is_fresh (dom (map_cells σ))). rewrite Heq.
    apply elem_of_dom. by eexists.
Qed.

Lemma cloned_into_maps σ t sh_t content :
  map_cells σ ⊆ map_cells (cloned_into σ t sh_t content).
Proof.
  unfold cloned_into. simpl. apply insert_subseteq.
  apply not_elem_of_dom, is_fresh.
Qed.

(** The copying loop from index [i] on: it returns; it only adds maps;
    it writes no shard object other than its targets; every target ends
    up pointing to a map that did not exist before and that holds the
    entries of the source shard of the same index; and the targets point
    to different maps. *)
Lemma Clone_loop_spec newMap ss : ∀ (i : nat) σ,
  NoDup (shards newMap) →
  (∀ t, t ∈ shards newMap → t ∉ ss) →
  (∀ s, s ∈ ss → ∃ sh content, shard_cells σ !! s = Some sh ∧
     rw_writer sh = false ∧ map_cells σ !! items sh = Some content) →
  (∀ j, (j < length ss)%nat →
     ∃ t sh_t, shards newMap !! (i + j)%nat = Some t ∧
               shard_cells σ !! t = Some sh_t) →
  ∃ σ',
    Clone_loop newMap i ss σ = Some (tt, σ') ∧
    map_cells σ ⊆ map_cells σ' ∧
    (∀ x, (∀ j, (j < length ss)%nat → shards newMap !! (i + j)%nat ≠ Some x) →
       shard_cells σ' !! x = shard_cells σ !! x) ∧
    (∀ j s t sh_t, ss !! j = Some s →
       shards newMap !! (i + j)%nat = Some t →
       shard_cells σ !! t = Some sh_t →
       ∃ m', shard_cells σ' !! t =
               Some (mkShard (rw_readers sh_t) (rw_writer sh_t) m') ∧
             (m' ∉ dom (map_cells σ)) ∧
             map_cells σ' !! m' = shard_content σ s) ∧
    (∀ j1 j2 t1 t2 sh1 sh2,
       (j1 < length ss)%nat → (j2 < length ss)%nat →
       shards newMap !! (i + j1)%nat = Some t1 →
       shards newMap !! (i + j2)%nat = Some t2 →
       shard_cells σ' !! t1 = Some sh1 → shard_cells σ' !! t2 = Some sh2 →
       items sh1 = items sh2 → t1 = t2).
Proof.
  induction ss as [|s ss IH]; intros i σ Hnd Hdisj Hsrc Htgt.
  { exists σ. split_and!; try done.
    intros j1 ????? Hj1. simpl in Hj1. lia. }
  destruct (Hsrc s) as (sh & content & Hc & Hw & Hm); [by left|].
  destruct (Htgt 0%nat) as (t & sh_t & Ht & Hct); [simpl; lia|].
  rewrite Nat.add_0_r in Ht.
  assert (Hts : t ≠ s).
  { intros Heq. apply (Hdisj t); [by eapply list_elem_of_lookup_2|].
    rewrite Heq. by left. }
  rewrite (Clone_loop_cons newMap i s ss σ sh content t sh_t) by done.
  set (σ1 := cloned_into σ t sh_t content).
  assert (Hlater : ∀ j t', shards newMap !! (S i + j)%nat = Some t' → t' ≠ t).
  { intros j t' Ht' ->.
    pose proof (NoDup_lookup _ _ _ _ Hnd Ht Ht'). lia. }
  destruct (IH (S i) σ1) as (σ' & Hrun & Hmaps & Hframe & Hcopy & Hinj);
    [done| | | |].
  { intros t' Ht' Hin. eapply Hdisj; [done|by right]. }
  { intros s' Hs'. destruct (Hsrc s') as (sh' & c' & Hc' & Hw' & Hm'); [by right|].
    exists sh', c'.
    destruct (cloned_into_other σ t sh_t content s' sh' c'); try done.
    intros Heq. apply (Hdisj t); [by eapply list_elem_of_lookup_2|].
    rewrite <- Heq. by right. }
  { intros j Hj. destruct (Htgt (S j)) as (t' & sh' & Ht' & Hct'); [simpl; lia|].
    rewrite Nat.add_succ_r in Ht'. exists t', sh'. split; [done|].
    unfold σ1, cloned_into. simpl.
    rewrite lookup_insert_ne; [done|]. intros <-. by eapply Hlater. }
  assert (Ht1 : shard_cells σ' !! t =
            Some (mkShard (rw_readers sh_t) (rw_writer sh_t)
                    (fresh (dom (map_cells σ))))).
  { rewrite Hframe.
    - unfold σ1, cloned_into. simpl. by rewrite lookup_insert_eq.
    - intros j Hj Hx. by eapply Hlater. }
  assert (Hm1 : map_cells σ' !! fresh (dom (map_cells σ)) = Some content).
  { eapply lookup_weaken; [|exact Hmaps].
    unfold σ1, cloned_into. simpl. by rewrite lookup_insert_eq. }
  assert (Hrest : ∀ j t' sh', (j < length ss)%nat →
            shards newMap !! (S i + j)%nat = Some t' →
            shard_cells σ' !! t' = Some sh' →
            items sh' ≠ fresh (dom (map_cells σ))).
  { intros j t' sh' Hj Ht' Hc' Heq.
    destruct (lookup_lt_is_Some_2 ss j Hj) as [s' Hs'].
    destruct (Htgt (S j)) as (t'' & sh'' & Ht'' & Hct''); [simpl; lia|].
    rewrite Nat.add_succ_r in Ht''. change (S i + j)%nat with (S (i + j)) in Ht'.
    rewrite Ht' in Ht''. injection Ht'' as <-.
    assert (Hct1 : shard_cells σ1 !! t' = Some sh'').
    { unfold σ1, cloned_into. simpl. rewrite lookup_insert_ne; [done|].
      intros <-. by eapply Hlater. }
    destruct (Hcopy j s' t' sh'' Hs' Ht' Hct1) as (m' & Hc1 & Hfresh & _).
    rewrite Hc' in Hc1. injection Hc1 as ->. simpl in Heq. subst m'.
    apply Hfresh. unfold σ1, cloned_into. simpl. rewrite dom_insert.
    apply elem_of_union. left. by apply elem_of_singleton. }
  exists σ'. split_and!.
  - done.
  - etrans; [apply cloned_into_maps|exact Hmaps].
  - intros x Hx. rewrite Hframe.
    + unfold σ1, cloned_into. simpl. rewrite lookup_insert_ne; [done|].
      intros <-. apply (Hx 0%nat); [simpl; lia|]. by rewrite Nat.add_0_r.
    + intros j Hj. specialize (Hx (S j)). rewrite Nat.add_succ_r in Hx.
      apply Hx. simpl. lia.
  - intros [|j] s' t' sh' Hs' Ht' Hct'.
    + rewrite Nat.add_0_r, Ht in Ht'. injection Ht' as <-.
      injection Hs' as <-. rewrite Hct in Hct'. injection Hct' as <-.
      exists (fresh (dom (map_cells σ))). split_and!; [done|apply is_fresh|].
      rewrite Hm1. unfold shard_content. by rewrite Hc.
    + rewrite Nat.add_succ_r in Ht'. simpl in Hs'.
      assert (Hne : t' ≠ t) by by eapply Hlater.
      assert (Hct1 : shard_cells σ1 !! t' = Some sh').
      { unfold σ1, cloned_into. simpl. by rewrite lookup_insert_ne. }
      destruct (Hcopy j s' t' sh' Hs' Ht' Hct1) as (m' & Hc1 & Hfresh & Hm1').
      exists m'. split_and!; [done| |].
      * intros Hd. apply Hfresh.
        eapply elem_of_weaken; [exact Hd|].
        apply subseteq_dom, cloned_into_maps.
      * rewrite Hm1'.
        destruct (Hsrc s') as (sh0 & c0 & Hc0 & Hw0 & Hm0);
          [right; by eapply list_elem_of_lookup_2|].
        destruct (cloned_into_other σ t sh_t content s' sh0 c0) as [E1 E2];
          try done.
        { intros Heq. apply (Hdisj t); [by eapply list_elem_of_lookup_2|].
          rewrite <- Heq. right. by eapply list_elem_of_lookup_2. }
        unfold shard_content. fold σ1 in E1, E2. by rewrite E1, E2, Hc0, Hm0.
  - intros [|j1] [|j2] t1 t2 sh1 sh2 Hj1 Hj2 Hl1 Hl2 Hc1 Hc2 Heq;
      simpl in Hj1, Hj2.
    + congruence.
    + rewrite Nat.add_0_r, Ht in Hl1. rewrite Nat.add_succ_r in Hl2.
      injection Hl1 as <-. rewrite Ht1 in Hc1.
      injection Hc1 as <-. simpl in Heq.
      destruct (Hrest j2 t2 sh2 ltac:(lia) Hl2 Hc2). done.
    + rewrite Nat.add_0_r, Ht in Hl2. rewrite Nat.add_succ_r in Hl1.
      injection Hl2 as <-. rewrite Ht1 in Hc2.
      injection Hc2 as <-. simpl in Heq.
      destruct (Hrest j1 t1 sh1 ltac:(lia) Hl1 Hc1). done.
    + rewrite Nat.add_succ_r in Hl1, Hl2.
      eapply (Hinj j1 j2); try done; lia.
Qed.

(** A container stays valid, with the same contents, in a heap that
    keeps its shard objects and the maps they point to as they are. *)
Lemma valid_frame c σ σ' :
  valid c σ →
  (∀ s, s ∈ shards c → shard_cells σ' !! s = shard_cells σ !! s) →
  (∀ s sh, s ∈ shards c → shard_cells σ !! s = Some sh →
     map_cells σ' !! items sh = map_cells σ !! items sh) →
  valid c σ' ∧ ∀ s, s ∈ shards c → shard_content σ' s = shard_content σ s.
Proof.
  intros Hv Hcells Hmaps.
  assert (Hsame : ∀ s, s ∈ shards c → shard_content σ' s = shard_content σ s).
  { intros s Hs. destruct (valid_cells _ _ Hv s Hs) as (sh & content & Hc & _ & Hm).
    unfold shard_content. rewrite Hcells, Hc by done. by eapply Hmaps. }
  split; [|done]. split; try apply Hv.
  - intros s Hs. destruct (valid_cells _ _ Hv s Hs) as (sh & content & Hc & Hu & Hm).
    exists sh, content. rewrite Hcells by done. split_and!; try done.
    by rewrite (Hmaps s sh).
  - intros s1 s2 sh1 sh2 Hs1 Hs2. rewrite !Hcells by done.
    by apply (valid_items _ _ Hv).
  - intros j s content key Hj. rewrite Hsame by by eapply list_elem_of_lookup_2.
    by apply (valid_routed _ _ Hv).
Qed.

(** In particular in a heap that only got more maps. *)
Lemma valid_frame_weaken c σ σ' :
  valid c σ →
  (∀ s, s ∈ shards c → shard_cells σ' !! s = shard_cells σ !! s) →
  map_cells σ ⊆ map_cells σ' →
  valid c σ' ∧ ∀ s, s ∈ shards c → shard_content σ' s = shard_content σ s.
Proof.
  intros Hv Hcells Hmaps. apply valid_frame; try done.
  intros s sh Hs Hc.
  destruct (valid_cells _ _ Hv s Hs) as (sh' & content & Hc' & _ & Hm).
  assert (sh' = sh) as -> by congruence.
  by rewrite Hm, (lookup_weaken _ _ _ _ Hm Hmaps).
Qed.

(** [Clone] returns a container with as many shards, valid and separate
    from its source, whose shards hold the entries of the source shards
    of the same index; the source is as it was. *)
Lemma Clone_spec c σ :
  valid c σ →
  ∃ c' σ',
    Clone c σ = Some (c', σ') ∧ length (shards c') = length (shards c) ∧
    valid c σ' ∧ valid c' σ' ∧ separate c c' σ' ∧
    contents c' σ' = contents c σ' ∧ contents c σ' = contents c σ.
Proof.
  intros Hv. pose proof (valid_nonempty _ _ Hv) as Hpos.
  destruct (New_valid (Z.of_nat (length (shards c))) σ ltac:(lia))
    as (c' & σ0 & HrunN & HvN & Hlen & Hmask & _ & Hsub & Hmsub & Hnew).
  rewrite Nat2Z.id in Hlen.
  assert (Hdisj : ∀ t, t ∈ shards c' → t ∉ shards c).
  { intros t Ht Hin. destruct (Hnew t Ht) as [Hfresh _]. apply Hfresh.
    destruct (valid_cells _ _ Hv t Hin) as (sh & _ & Hc & _).
    apply elem_of_dom. by eexists. }
  destruct (valid_frame_weaken c σ σ0 Hv) as [Hv0 Hsame0]; [|done|].
  { intros s Hs. destruct (valid_cells _ _ Hv s Hs) as (sh & _ & Hc & _).
    by rewrite Hc, (lookup_weaken _ _ _ _ Hc Hsub). }
  destruct (Clone_loop_spec c' (shards c) 0%nat σ0)
    as (σ' & Hloop & Hmaps & Hframe & Hcopy & Hinj).
  { apply HvN. }
  { done. }
  { intros s. by apply valid_readable. }
  { intros j Hj. rewrite <- Hlen in Hj.
    destruct (lookup_lt_is_Some_2 _ _ Hj) as [t Ht].
    destruct (valid_cells _ _ HvN t) as (sh & _ & Hc & _);
      [by eapply list_elem_of_lookup_2|].
    by exists t, sh. }
  simpl in Hframe, Hcopy, Hinj.
  assert (Hcells' : ∀ s, s ∈ shards c →
            shard_cells σ' !! s = shard_cells σ0 !! s).
  { intros s Hs. apply Hframe. intros j _ Hj.
    eapply Hdisj; [by eapply list_elem_of_lookup_2|done]. }
  destruct (valid_frame_weaken c σ0 σ' Hv0) as [Hv' Hsame']; [done..|].
  (* What the copying loop made of the target of index [j]. *)
  assert (Htarget : ∀ j t, shards c' !! j = Some t →
    ∃ s sh_t m' content,
      shards c !! j = Some s ∧ shard_cells σ0 !! t = Some sh_t ∧
      unlocked sh_t ∧
      shard_cells σ' !! t =
        Some (mkShard (rw_readers sh_t) (rw_writer sh_t) m') ∧
      (m' ∉ dom (map_cells σ0)) ∧ map_cells σ' !! m' = Some content ∧
      shard_content σ s = Some content ∧
      shard_content σ' t = Some content).
  { intros j t Ht.
    destruct (lookup_lt_is_Some_2 (shards c) j) as [s Hs].
    { rewrite <- Hlen. by eapply lookup_lt_Some. }
    assert (Hin : s ∈ shards c) by by eapply list_elem_of_lookup_2.
    destruct (valid_cells _ _ HvN t) as (sh_t & _ & Hc & Hu & _);
      [by eapply list_elem_of_lookup_2|].
    destruct (Hcopy j s t sh_t Hs Ht Hc) as (m' & Hc' & Hfresh & Hm').
    rewrite Hsame0 in Hm' by done.
    destruct (valid_cells _ _ Hv s Hin) as (sh & content & Hcs & _ & Hms).
    assert (Hcont : shard_content σ s = Some content)
      by (unfold shard_content; by rewrite Hcs).
    rewrite Hcont in Hm'.
    exists s, sh_t, m', content. split_and!; try done.
    unfold shard_content. by rewrite Hc'. }
  exists c', σ'. split_and!; try done.
  - unfold Clone, bind, ret. by rewrite HrunN, Hloop.
  - split; try apply HvN.
    + intros t Ht. apply list_elem_of_lookup_1 in Ht as [j Hj].
      destruct (Htarget j t Hj)
        as (s & sh_t & m' & content & _ & _ & Hu & Hc' & _ & Hm' & _).
      by eexists _, content.
    + intros t1 t2 sh1 sh2 Ht1 Ht2 Hc1 Hc2 Heq.
      apply list_elem_of_lookup_1 in Ht1 as [j1 Hj1].
      apply list_elem_of_lookup_1 in Ht2 as [j2 Hj2].
      eapply (Hinj j1 j2); try done; rewrite <- Hlen; by eapply lookup_lt_Some.
    + intros j t content key Hj Hcont Hkey.
      destruct (Htarget j t Hj)
        as (s & sh_t & m' & content' & Hs & _ & _ & _ & _ & _ & Hcs & Hct).
      rewrite Hct in Hcont. injection Hcont as ->.
      replace (shardIndex c' key) with (shardIndex c key).
      { by eapply (valid_routed _ _ Hv). }
      unfold shardIndex. by rewrite Hmask, (valid_mask _ _ Hv).
  - split.
    + intros s Hs Ht. by eapply Hdisj.
    + intros s t sh sh' Hs Ht Hc Hc' Heq.
      apply list_elem_of_lookup_1 in Ht as [j Hj].
      destruct (Htarget j t Hj)
        as (_ & sh_t & m' & _ & _ & _ & _ & Hc'' & Hfresh & _).
      rewrite Hc' in Hc''. injection Hc'' as ->. simpl in Heq. subst m'.
      apply Hfresh.
      rewrite Hcells' in Hc by done.
      destruct (valid_cells _ _ Hv0 s Hs) as (sh1 & content1 & Hc1 & _ & Hm1).
      assert (sh1 = sh) by congruence.
      subst sh1. apply elem_of_dom. by eexists.
  - apply list_eq. intros j. unfold contents. rewrite !list_lookup_fmap.
    destruct (shards c' !! j) as [t|] eqn:Ht.
    + destruct (Htarget j t Ht)
        as (s & _ & _ & content & Hs & _ & _ & _ & _ & _ & Hcs & Hct).
      assert (Hin : s ∈ shards c) by by eapply list_elem_of_lookup_2.
      rewrite Hs. simpl. by rewrite Hct, Hsame', Hsame0, Hcs.
    + apply lookup_ge_None in Ht. rewrite Hlen in Ht.
      apply lookup_ge_None in Ht. by rewrite Ht.
  - unfold contents. apply list_fmap_ext. intros j s Hs.
    assert (Hin : s ∈ shards c) by by eapply list_elem_of_lookup_2.
    by rewrite Hsame', Hsame0.
Qed.

(** *** Separate containers do not see each other's writes *)

Lemma separate_sym c c' σ : separate c c' σ → separate c' c σ.
Proof.
  intros [Hs Hi]. split.
  - intros s Hs' Hin. by apply (Hs s).
  - intros s s' sh sh' ???? Heq. by eapply (Hi s' s).
Qed.

Lemma with_map_separate c c' σ s sh content2 :
  valid c' σ → separate c c' σ → s ∈ shards c →
  shard_cells σ !! s = Some sh →
  valid c' (with_map σ sh content2) ∧ separate c c' (with_map σ sh content2) ∧
  contents c' (with_map σ sh content2) = contents c' σ.
Proof.
  intros Hv' [Hsep1 Hsep2] Hs Hc.
  destruct (valid_frame c' σ (with_map σ sh content2) Hv') as [Hv2 Hsame];
    [done| |].
  { intros s' sh' Hs' Hc'. simpl. rewrite lookup_insert_ne; [done|].
    intros Heq. by eapply (Hsep2 s s'). }
  split_and!; [done|by split|].
  unfold contents. apply list_fmap_ext. intros j s' Hj.
  apply Hsame. by eapply list_elem_of_lookup_2.
Qed.

Lemma mutate1_spec c σ (mu : mutation K V) :
  valid c σ →
  ∃ σ', mutate1 c mu σ = Some (tt, σ') ∧ valid c σ' ∧
        ∀ c', valid c' σ → separate c c' σ →
              valid c' σ' ∧ separate c c' σ' ∧
              contents c' σ' = contents c' σ.
Proof.
  intros Hv. destruct mu as [key value|key]; simpl.
  - destruct (Set_valid c σ key value Hv)
      as (s & sh & content & Hs & Hc & _ & _ & Hrun & Hv1).
    eexists. split_and!; [done..|]. intros c' Hv' Hsep.
    eapply with_map_separate; try done. by eapply list_elem_of_lookup_2.
  - destruct (Delete_valid c σ key Hv)
      as (s & sh & content & Hs & Hc & _ & _ & Hrun & Hv1).
    eexists. split_and!; [done..|]. intros c' Hv' Hsep.
    eapply with_map_separate; try done. by eapply list_elem_of_lookup_2.
Qed.

Lemma mutate_spec c (ms : list (mutation K V)) : ∀ σ,
  valid c σ →
  ∃ σ', mutate c ms σ = Some (tt, σ') ∧ valid c σ' ∧
        ∀ c', valid c' σ → separate c c' σ →
              valid c' σ' ∧ separate c c' σ' ∧
              contents c' σ' = contents c' σ.
Proof.
  induction ms as [|mu ms IH]; intros σ Hv.
  { exists σ. by split_and!. }
  destruct (mutate1_spec c σ mu Hv) as (σ1 & Hrun1 & Hv1 & Hother1).
  destruct (IH σ1 Hv1) as (σ' & Hrun & Hv2 & Hother2).
  exists σ'. split_and!; [|done|].
  - simpl. unfold bind. by rewrite Hrun1.
  - intros c' Hv' Hsep.
    destruct (Hother1 c' Hv' Hsep) as (Hv1' & Hsep1 & Hcont1).
    destruct (Hother2 c' Hv1' Hsep1) as (Hv2' & Hsep2 & Hcont2).
    split_and!; try done. by rewrite Hcont2.
Qed.

(** *** Collect *)

Lemma entries_contents c c' σ σ' :
  contents c σ = contents c' σ' → entries c σ = entries c' σ'.
Proof.
  unfold contents, entries. intros Heq. do 2 f_equal.
  assert (Homap : ∀ (ss : list loc) (τ : Heap K V), omap (shard_content τ) ss =
                          omap id (shard_content τ <$> ss)).
  { intros ss τ. induction ss as [|s ss IH]; [done|].
    csimpl. rewrite IH. by destruct (shard_content τ s). }
  by rewrite !Homap, Heq.
Qed.

Lemma Collect_run c σ :
  valid c σ →
  Collect c σ =
    Some ((visit_items (λ k v (r : gmap K V), (<[k := v]> r, true))
             (entries c σ) ∅).1, σ).
Proof. intros Hv. unfold Collect, All. by apply (Range_run c σ). Qed.

End Correctness.

(** The map that [Collect] builds does not depend on the order in which
    the built-in maps hand out their entries. *)

Lemma collect_lookup {K V} `{Countable K} (l : list (K * V)) : ∀ (r : gmap K V) k,
  NoDup l.*1 →
  (visit_items (λ k v (r : gmap K V), (<[k := v]> r, true)) l r).1 !! k =
    match (list_to_map l : gmap K V) !! k with
    | Some v => Some v
    | None => r !! k
    end.
Proof.
  induction l as [|[k0 v0] l IH]; intros r k Hnd.
  { simpl. by rewrite lookup_empty. }
  rewrite fmap_cons in Hnd. apply NoDup_cons in Hnd as [Hk0 Hnd].
  simpl. rewrite IH by done.
  destruct (decide (k = k0)) as [->|Hne].
  - rewrite !lookup_insert_eq.
    by rewrite (not_elem_of_list_to_map_1 _ _ Hk0).
  - by rewrite !lookup_insert_ne.
Qed.

Lemma Collect_any_order {K V} `{Countable K} `{!Formatter K}
    (o1 o2 : RangeOrder K V) c (σ : Heap K V) :
  valid c σ →
  Collect (RangeOrder0 := o1) c σ = Collect (RangeOrder0 := o2) c σ.
Proof.
  intros Hv.
  rewrite (Collect_run (RangeOrder0 := o1)), (Collect_run (RangeOrder0 := o2))
    by done.
  do 2 f_equal. apply map_eq. intros k.
  pose proof (NoDup_entries_keys (RangeOrder0 := o1) c σ Hv) as Hnd1.
  pose proof (NoDup_entries_keys (RangeOrder0 := o2) c σ Hv) as Hnd2.
  rewrite !collect_lookup, !lookup_empty by done.
  replace (list_to_map (entries (RangeOrder0 := o2) c σ) : gmap K V)
    with (list_to_map (entries (RangeOrder0 := o1) c σ) : gmap K V); [done|].
  apply list_to_map_proper; [done|].
  apply NoDup_Permutation.
  - by eapply NoDup_fmap_1.
  - by eapply NoDup_fmap_1.
  - intros [k' v']. unfold entries.
    by rewrite (elem_of_shard_entries (RangeOrder0 := o1)),
               (elem_of_shard_entries (RangeOrder0 := o2)).
Qed.

(** ** Clone and EqualFunc *)

Section Snapshots.
Context {K V : Type} `{Countable K}.
Context `{!Formatter K} `{!ZeroValue V} `{!RangeOrder K V}.
Implicit Types (c : ConcurrentHashMap) (σ : Heap K V) (s m : loc).
Implicit Types (sh : shard) (content : gmap K V) (key : K).

(** C8: [Clone] returns a container with the same number of shards that
    has no shard object and no built-in map in common with its source;
    [Collect] gives the same map on the clone and on the source, in
    whatever order the built-in maps are walked; and whatever sequence of
    [Set] and [Delete] calls is then made on one of the two, the contents
    of every shard of the other, and what [Collect] gives on it, stay as
    they were. *)
Theorem C8_Clone_independent c σ :
  valid c σ →
  ∃ c' σ' r,
    Clone c σ = Some (c', σ') ∧
    length (shards c') = length (shards c) ∧
    separate c c' σ' ∧
    Collect c σ = Some (r, σ) ∧
    Collect c σ' = Some (r, σ') ∧
    (∀ o : RangeOrder K V, Collect (RangeOrder0 := o) c' σ' = Some (r, σ')) ∧
    (∀ ms, ∃ σ'', mutate c' ms σ' = Some (tt, σ'') ∧
                  contents c σ'' = contents c σ' ∧
                  Collect c σ'' = Some (r, σ'')) ∧
    (∀ ms, ∃ σ'', mutate c ms σ' = Some (tt, σ'') ∧
                  contents c' σ'' = contents c' σ' ∧
                  Collect c' σ'' = Some (r, σ'')).
Proof.
  intros Hv.
  destruct (Clone_spec c σ Hv)
    as (c' & σ' & Hrun & Hlen & Hv1 & Hv1' & Hsep & Hsame & Hkept).
  exists c', σ', (visit_items (λ k v (r : gmap K V), (<[k := v]> r, true))
                   (entries c σ) ∅).1.
  split_and!; try done.
  - by apply Collect_run.
  - rewrite Collect_run by done. by rewrite (entries_contents c c σ' σ).
  - intros o. rewrite (Collect_any_order o RangeOrder0 c' σ' Hv1').
    rewrite Collect_run by done.
    rewrite (entries_contents c' c σ' σ); [done|]. by rewrite Hsame.
  - intros ms.
    destruct (mutate_spec c' ms σ' Hv1') as (σ'' & Hmut & _ & Hother).
    destruct (Hother c Hv1 (separate_sym _ _ _ Hsep)) as (Hv2 & _ & Hcont).
    exists σ''. split_and!; try done.
    rewrite Collect_run by done.
    rewrite (entries_contents c c σ'' σ); [done|]. by rewrite Hcont.
  - intros ms.
    destruct (mutate_spec c ms σ' Hv1) as (σ'' & Hmut & _ & Hother).
    destruct (Hother c' Hv1' Hsep) as (Hv2 & _ & Hcont).
    exists σ''. split_and!; try done.
    rewrite Collect_run by done.
    rewrite (entries_contents c' c σ'' σ); [done|].
    by rewrite Hcont, Hsame.
Qed.

(** *** EqualFunc *)






End Snapshots.

(** ** Further properties of the operations *)

Section Extras.
Context {K V : Type} `{Countable K}.
Context `{!Formatter K} `{!ZeroValue V} `{!RangeOrder K V}.
Implicit Types (c : ConcurrentHashMap) (σ : Heap K V) (s m : loc).
Implicit Types (sh : shard) (content : gmap K V) (key : K).

(** *** Collect and Get *)

Lemma Collect_list_to_map c σ :
  valid c σ → Collect c σ = Some (list_to_map (entries c σ), σ).
Proof.
  intros Hv. rewrite Collect_run by done. do 2 f_equal.
  apply map_eq. intros k.
  rewrite collect_lookup by by apply NoDup_entries_keys.
  rewrite lookup_empty. by destruct (list_to_map (entries c σ) !! k).
Qed.

Lemma entries_lookup c σ key s sh content :
  valid c σ →
  shards c !! Z.to_nat (shardIndex c key) = Some s →
  shard_cells σ !! s = Some sh → map_cells σ !! items sh = Some content →
  (list_to_map (entries c σ) : gmap K V) !! key = content !! key.
Proof.
  intros Hv Hs Hc Hm.
  assert (Hcont : shard_content σ s = Some content)
    by (unfold shard_content; by rewrite Hc).
  destruct (content !! key) as [v|] eqn:Hk.
  - apply elem_of_list_to_map_1; [by apply NoDup_entries_keys|].
    apply elem_of_shard_entries. exists s, content. split_and!; try done.
    by eapply list_elem_of_lookup_2.
  - apply not_elem_of_list_to_map_1. intros Hin.
    apply live_iff_entries in Hin as [v Hlive]; [|done].
    rewrite (Get_run c σ key s sh content) in Hlive; try done.
    + injection Hlive as Hr. unfold index_result in Hr. by rewrite Hk in Hr.
    + destruct (valid_cells _ _ Hv s) as (sh' & _ & Hc' & [_ Hw] & _);
        [by eapply list_elem_of_lookup_2|].
      congruence.
Qed.


(** *** A new container *)

Lemma map_range_empty : map_range (∅ : gmap K V) = [].
Proof.
  apply Permutation_nil_r. rewrite map_range_perm. by rewrite map_to_list_empty.
Qed.

Lemma entries_empty c σ :
  (∀ s, s ∈ shards c → shard_content σ s = Some ∅) → entries c σ = [].
Proof.
  unfold entries. induction (shards c) as [|s ss IH]; intros Hall; [done|].
  csimpl. rewrite Hall by by left. csimpl. rewrite map_range_empty. simpl.
  apply IH. intros s' Hs'. apply Hall. by right.
Qed.

(** X2: the container that the constructor returns for a shard count of
    at least 1 is empty: [Get] misses on every key, [Collect] gives the
    empty map and [Range] never calls its visitor. *)
Theorem X2_new_container_is_empty (n : Z) σ :
  1 ≤ n →
  ∃ c σ', NewConcurrentHashMap n σ = Some (c, σ') ∧
          (∀ key, Get c key σ' = Some ((zero_value, false), σ')) ∧
          Collect c σ' = Some (∅, σ') ∧
          ∀ St (f : K → V → St → St * bool) st,
            Range c (traced f) ([], st) σ' = Some (([], st), σ').
Proof.
  intros Hn.
  destruct (New_valid n σ Hn) as (c & σ' & Hrun & Hv & _ & _ & Hempty & _).
  pose proof (entries_empty c σ' Hempty) as Hent.
  exists c, σ'. split_and!; [done|..].
  - intros key.
    destruct (Get_valid c σ' key Hv) as (s & sh & content & Hs & Hc & Hm & Hget).
    rewrite Hget. unfold index_result.
    rewrite <- (entries_lookup c σ' key s sh content) by done.
    by rewrite Hent.
  - rewrite Collect_list_to_map by done. by rewrite Hent.
  - intros St f st. rewrite Range_run by done. by rewrite Hent.
Qed.

(** *** How single-key writes compose *)

Lemma mutate1_run c σ (mu : mutation K V) :
  valid c σ →
  ∃ s sh content,
    shards c !! Z.to_nat (shardIndex c (mutation_key mu)) = Some s ∧
    shard_cells σ !! s = Some sh ∧
    map_cells σ !! items sh = Some content ∧
    mutate1 c mu σ = Some (tt, with_map σ sh (mutation_apply mu content)) ∧
    valid c (with_map σ sh (mutation_apply mu content)).
Proof.
  intros Hv. destruct mu as [key value|key]; simpl.
  - destruct (Set_valid c σ key value Hv)
      as (s & sh & content & Hs & Hc & _ & Hm & Hrun & Hv').
    by exists s, sh, content.
  - destruct (Delete_valid c σ key Hv)
      as (s & sh & content & Hs & Hc & _ & Hm & Hrun & Hv').
    by exists s, sh, content.
Qed.

Lemma mutation_apply_commute (mu1 mu2 : mutation K V) content :
  mutation_key mu1 ≠ mutation_key mu2 →
  mutation_apply mu1 (mutation_apply mu2 content) =
  mutation_apply mu2 (mutation_apply mu1 content).
Proof.
  intros Hne. destruct mu1 as [k1 v1|k1], mu2 as [k2 v2|k2]; simpl in *.
  - by apply insert_insert_ne.
  - by rewrite delete_insert_ne.
  - by rewrite delete_insert_ne.
  - apply delete_delete.
Qed.

(** X3: writes to two different keys can be made in either order: both
    orders return and leave the same heap, whether the keys share a shard
    or not. *)
Theorem X3_writes_to_different_keys_commute c σ (mu1 mu2 : mutation K V) :
  valid c σ → mutation_key mu1 ≠ mutation_key mu2 →
  ∃ σ', mutate c [mu1; mu2] σ = Some (tt, σ') ∧
        mutate c [mu2; mu1] σ = Some (tt, σ').
Proof.
  intros Hv Hne.
  destruct (mutate1_run c σ mu1 Hv) as (s1 & sh1 & x1 & Hs1 & Hc1 & Hm1 & Hrun1 & Hv1).
  destruct (mutate1_run c σ mu2 Hv) as (s2 & sh2 & x2 & Hs2 & Hc2 & Hm2 & Hrun2 & Hv2).
  destruct (mutate1_run c _ mu2 Hv1) as (s2' & sh2' & y2 & Hs2' & Hc2' & Hm2' & Hrun12 & _).
  destruct (mutate1_run c _ mu1 Hv2) as (s1' & sh1' & y1 & Hs1' & Hc1' & Hm1' & Hrun21 & _).
  rewrite Hs2 in Hs2'. injection Hs2' as <-.
  rewrite Hs1 in Hs1'. injection Hs1' as <-.
  simpl in Hc2', Hc1'. rewrite Hc2 in Hc2'. rewrite Hc1 in Hc1'.
  injection Hc2' as <-. injection Hc1' as <-.
  eexists. split.
  { simpl. unfold bind. rewrite Hrun1, Hrun12. reflexivity. }
  simpl. unfold bind. rewrite Hrun2, Hrun21. unfold ret. do 2 f_equal.
  unfold with_map in *. simpl in *. f_equal.
  destruct (decide (items sh1 = items sh2)) as [Heq|Hdiff].
  - rewrite Heq in *. rewrite lookup_insert_eq in Hm1', Hm2'.
    injection Hm1' as <-. injection Hm2' as <-.
    rewrite !insert_insert_eq.
    assert (x1 = x2) as -> by congruence.
    by rewrite mutation_apply_commute.
  - rewrite lookup_insert_ne in Hm1' by done.
    rewrite lookup_insert_ne in Hm2' by done.
    assert (y1 = x1) as -> by congruence.
    assert (y2 = x2) as -> by congruence.
    by apply insert_insert_ne.
Qed.

(** X4: on a key type whose [==] is the identity of values, [Set] of a
    key that [Get] does not find, followed by [Delete] of that key, gives
    back the heap as it was; and [Delete] of a key followed by [Set] of
    the value it had does the same. *)
Theorem X4_Set_Delete_round_trip c σ key v :
  valid c σ →
  (¬ live c σ key →
   ∃ σ1, Set_ c key v σ = Some (tt, σ1) ∧ Delete c key σ1 = Some (tt, σ)) ∧
  (Get c key σ = Some ((v, true), σ) →
   ∃ σ1, Delete c key σ = Some (tt, σ1) ∧ Set_ c key v σ1 = Some (tt, σ)).
Proof.
  intros Hv.
  destruct (valid_route c σ key Hv) as (s & sh & content & Hs & Hc & Hu & Hm).
  assert (Hget : Get c key σ = Some (index_result content key, σ))
    by (apply Get_run with s sh; try done; apply Hu).
  split.
  - intros Hlive.
    assert (Hk : content !! key = None).
    { destruct (content !! key) as [v'|] eqn:Hk; [|done].
      destruct Hlive. exists v'. rewrite Hget. unfold index_result.
      by rewrite Hk. }
    eexists. split; [by apply Set_run with s|].
    rewrite (Delete_run c _ key s sh (<[key := v]> content)); try done.
    + rewrite with_map_twice, delete_insert_id by done.
      by rewrite with_map_id.
    + simpl. by rewrite lookup_insert_eq.
  - intros Hfound. rewrite Hget in Hfound. injection Hfound as Hr.
    assert (Hk : content !! key = Some v).
    { unfold index_result in Hr. destruct (content !! key); congruence. }
    eexists. split; [by apply Delete_run with s|].
    rewrite (Set_run c _ key v s sh (delete key content)); try done.
    + rewrite with_map_twice, insert_delete_id by done.
      by rewrite with_map_id.
    + simpl. by rewrite lookup_insert_eq.
Qed.

(** *** The number of entries *)

Lemma visit_items_count_all (l : list (K * V)) (n : nat) :
  visit_items (λ (_ : K) (_ : V) n, (S n, true)) l n = ((n + length l)%nat, true).
Proof.
  revert n. induction l as [|[k v] l IH]; intros n; simpl.
  { f_equal. lia. }
  rewrite IH. f_equal. lia.
Qed.

Lemma count_entries_run c σ :
  valid c σ → count_entries c σ = Some (length (entries c σ), σ).
Proof.
  intros Hv. unfold count_entries. rewrite Range_run by done.
  by rewrite visit_items_count_all.
Qed.

(** The keys [Get] finds after a write: the written key is found after a
    [Set] and not after a [Delete]; any other key is found as before. *)
Lemma live_after_mutation c σ (mu : mutation K V) σ' key :
  valid c σ → mutate1 c mu σ = Some (tt, σ') →
  live c σ' key ↔
    if decide (key = mutation_key mu)
    then (if mu is MSet _ _ then True else False)
    else live c σ key.
Proof.
  intros Hv Hrun.
  destruct (mutate1_run c σ mu Hv) as (s & sh & content & Hs & Hc & Hm & Hrun' & Hv').
  rewrite Hrun in Hrun'. injection Hrun' as ->.
  case_decide as Hkey.
  - subst key.
    assert (Hget : Get c (mutation_key mu) (with_map σ sh (mutation_apply mu content))
              = Some (index_result (mutation_apply mu content) (mutation_key mu),
                      with_map σ sh (mutation_apply mu content))).
    { apply Get_run with s sh; try done.
      - destruct (valid_cells _ _ Hv s) as (sh' & _ & Hc' & [_ Hw] & _);
          [by eapply list_elem_of_lookup_2|]. congruence.
      - simpl. by rewrite lookup_insert_eq. }
    unfold live. rewrite Hget. unfold index_result.
    destruct mu as [k v|k]; simpl.
    + rewrite lookup_insert_eq. split; [done|]. intros _. by exists v.
    + rewrite lookup_delete_eq. split; [|done]. by intros [v' ?].
  - destruct (Get_with_map c σ key s sh content (mutation_apply mu content))
      as (r & Hg & Hg'); try done.
    + by eapply list_elem_of_lookup_2.
    + destruct mu as [k v|k]; simpl in *.
      * by rewrite lookup_insert_ne.
      * by rewrite lookup_delete_ne.
    + unfold live. rewrite Hg, Hg'.
      split; intros [v' Hv'']; exists v'; congruence.
Qed.

(** X5: [Set] of a key that [Get] does not find makes [Range] show one
    entry more; [Set] of a key that [Get] finds leaves the number of
    entries as it is; [Delete] of a key that [Get] finds makes [Range]
    show one entry less. *)
Theorem X5_entry_count c σ key v (n : nat) :
  valid c σ → count_entries c σ = Some (n, σ) →
  ∃ σ1 σ2,
    Set_ c key v σ = Some (tt, σ1) ∧ Delete c key σ = Some (tt, σ2) ∧
    (¬ live c σ key → count_entries c σ1 = Some (S n, σ1) ∧
                      count_entries c σ2 = Some (n, σ2)) ∧
    (live c σ key → count_entries c σ1 = Some (n, σ1) ∧
                    count_entries c σ2 = Some (Nat.pred n, σ2) ∧ (0 < n)%nat).
Proof.
  intros Hv Hcount. rewrite count_entries_run in Hcount by done.
  injection Hcount as <-.
  destruct (mutate1_run c σ (MSet key v) Hv)
    as (s & sh & content & Hs & Hc & Hm & Hrun1 & Hv1).
  destruct (mutate1_run c σ (MDelete key) Hv)
    as (s' & sh' & content' & Hs' & Hc' & Hm' & Hrun2 & Hv2).
  simpl in Hrun1, Hrun2. eexists _, _. split_and!; [exact Hrun1|exact Hrun2|..].
  - intros Hdead. rewrite !count_entries_run by done. split; do 2 f_equal.
    + rewrite <- (length_fmap fst (entries c σ)).
      change (S (length (entries c σ).*1))
        with (length (key :: (entries c σ).*1)).
      apply length_entries; [done| |].
      * constructor; [|by apply NoDup_entries_keys].
        by rewrite <- live_iff_entries.
      * intros k. rewrite (live_after_mutation c σ (MSet key v) _ k Hv Hrun1).
        simpl. rewrite elem_of_cons, <- live_iff_entries by done.
        case_decide; [subst k|]; tauto.
    + rewrite <- (length_fmap fst (entries c σ)).
      apply length_entries; [done|by apply NoDup_entries_keys|].
      intros k. rewrite (live_after_mutation c σ (MDelete key) _ k Hv Hrun2).
      simpl. rewrite <- live_iff_entries by done.
      case_decide; [subst k|]; tauto.
  - intros Hlive. rewrite !count_entries_run by done.
    assert (Hin : key ∈ (entries c σ).*1) by by apply live_iff_entries.
    apply elem_of_Permutation in Hin as [ks Hperm].
    assert (Hnd : NoDup (key :: ks)).
    { rewrite <- Hperm. by apply NoDup_entries_keys. }
    apply NoDup_cons in Hnd as [Hnotin Hnd].
    assert (Hlen : length (entries c σ) = S (length ks)).
    { rewrite <- (length_fmap fst), Hperm. done. }
    split_and!; [do 2 f_equal..|lia].
    + rewrite Hlen.
      change (S (length ks)) with (length (key :: ks)).
      apply length_entries; [done|by constructor|].
      intros k. rewrite (live_after_mutation c σ (MSet key v) _ k Hv Hrun1).
      simpl. rewrite elem_of_cons.
      case_decide; [subst k; tauto|].
      rewrite (live_iff_entries c σ k Hv), Hperm, elem_of_cons. tauto.
    + rewrite Hlen. simpl.
      apply length_entries; [done..|].
      intros k. rewrite (live_after_mutation c σ (MDelete key) _ k Hv Hrun2).
      simpl.
      case_decide; [subst k; tauto|].
      rewrite (live_iff_entries c σ k Hv), Hperm, elem_of_cons. tauto.
Qed.

(** *** Keys, Values and All *)

Lemma yield_keys_visit {St} (yield : K → St → St * bool) l st :
  yield_keys yield l st = visit_items (λ k (_ : V), yield k) l st.
Proof.
  revert st. induction l as [|[k v] l IH]; intros st; [done|].
  simpl. destruct (yield k st) as [st' []]; [apply IH|done].
Qed.

Lemma yield_values_visit {St} (yield : V → St → St * bool) l st :
  yield_values yield l st = visit_items (λ (_ : K) v, yield v) l st.
Proof.
  revert st. induction l as [|[k v] l IH]; intros st; [done|].
  simpl. destruct (yield v st) as [st' []]; [apply IH|done].
Qed.

(** The loops of [Keys] and of [Values] are the loops of [Range] with a
    visitor that looks at one half of the pair. *)
Lemma Keys_shards_visit {St} (yield : K → St → St * bool) ss st σ :
  Keys_shards yield ss st σ = visit_shards (λ k (_ : V), yield k) ss st σ.
Proof.
  revert st σ. induction ss as [|s ss IH]; intros st σ; [done|].
  simpl. unfold bind.
  destruct (RLock s σ) as [[[] σ1]|]; [|done].
  destruct (shard_items s σ1) as [[m σ2]|]; [|done].
  destruct (load_map m σ2) as [[content σ3]|]; [|done].
  rewrite yield_keys_visit.
  destruct (visit_items _ (map_range content) st) as [st' continue].
  destruct (RUnlock s σ3) as [[[] σ4]|]; [|done].
  destruct continue; [apply IH|done].
Qed.

Lemma Values_shards_visit {St} (yield : V → St → St * bool) ss st σ :
  Values_shards yield ss st σ = visit_shards (λ (_ : K) v, yield v) ss st σ.
Proof.
  revert st σ. induction ss as [|s ss IH]; intros st σ; [done|].
  simpl. unfold bind.
  destruct (RLock s σ) as [[[] σ1]|]; [|done].
  destruct (shard_items s σ1) as [[m σ2]|]; [|done].
  destruct (load_map m σ2) as [[content σ3]|]; [|done].
  rewrite yield_values_visit.
  destruct (visit_items _ (map_range content) st) as [st' continue].
  destruct (RUnlock s σ3) as [[[] σ4]|]; [|done].
  destruct continue; [apply IH|done].
Qed.

Lemma visit_items_collect {A} (g : K → V → A) l (acc : list A) :
  visit_items (λ k v acc, (acc ++ [g k v], true)) l acc =
    (acc ++ ((λ kv, g kv.1 kv.2) <$> l), true).
Proof.
  revert acc. induction l as [|[k v] l IH]; intros acc; simpl.
  { by rewrite app_nil_r. }
  rewrite IH. by rewrite <- app_assoc.
Qed.

Lemma collect_keys_run c σ :
  valid c σ → collect_keys c σ = Some ((entries c σ).*1, σ).
Proof.
  intros Hv. unfold collect_keys, Keys. rewrite Keys_shards_visit.
  rewrite visit_shards_run by (intros s; by apply valid_readable).
  fold (entries c σ).
  by rewrite (visit_items_collect (λ k _, k)).
Qed.


Lemma collect_pairs_run c σ :
  valid c σ → collect_pairs c σ = Some (entries c σ, σ).
Proof.
  intros Hv. unfold collect_pairs, All.
  rewrite visit_shards_run by (intros s; by apply valid_readable).
  fold (entries c σ).
  rewrite (visit_items_collect (λ k v, (k, v))). simpl. do 2 f_equal.
  rewrite <- (list_fmap_id (entries c σ)) at 2.
  apply list_fmap_ext. by intros ? [].
Qed.

(** X6: on a key type whose [==] is the identity of values, a consumer
    that writes down what [Keys] yields and always asks for more ends up
    with a duplicate-free list of exactly the keys that [Get] finds; the
    heap is left as it was. *)
Theorem X6_Keys_yields_live_keys c σ :
  valid c σ →
  ∃ ks, collect_keys c σ = Some (ks, σ) ∧ NoDup ks ∧
        ∀ key, key ∈ ks ↔ live c σ key.
Proof.
  intros Hv. exists (entries c σ).*1. split_and!.
  - by apply collect_keys_run.
  - by apply NoDup_entries_keys.
  - intros key. by rewrite live_iff_entries.
Qed.


(** The entries of the shards from index [i] on, in the order of the
    walk, carry non-decreasing shard indices, all of them at least [i]. *)
Lemma shard_entries_sorted c σ ss (i : nat) :
  valid c σ →
  (∀ j s, ss !! j = Some s → shards c !! (i + j)%nat = Some s) →
  StronglySorted le
    (entry_shard c <$> mjoin (map_range <$> omap (shard_content σ) ss)) ∧
  ∀ kv, kv ∈ mjoin (map_range <$> omap (shard_content σ) ss) →
        (i ≤ entry_shard c kv)%nat.
Proof.
  intros Hv. revert i. induction ss as [|s ss IH]; intros i Hss.
  { split; [constructor|]. intros kv Hkv. by apply elem_of_nil in Hkv. }
  destruct (IH (S i)) as [Hsorted Hlow].
  { intros j s' Hj. rewrite Nat.add_succ_l, <- Nat.add_succ_r. by apply Hss. }
  pose proof (Hss 0%nat s eq_refl) as Hs. rewrite Nat.add_0_r in Hs.
  csimpl. destruct (shard_content σ s) as [content|] eqn:Hc; csimpl.
  - assert (Hblock : ∀ kv, kv ∈ map_range content → entry_shard c kv = i).
    { intros [k v] Hkv. apply elem_of_map_range in Hkv.
      apply (valid_routed _ _ Hv i s content k); [done..|by eexists]. }
    split.
    + rewrite fmap_app. apply StronglySorted_app_2.
      * intros x1 x2 Hx1 Hx2.
        apply list_elem_of_fmap in Hx1 as (kv1 & -> & Hkv1).
        apply list_elem_of_fmap in Hx2 as (kv2 & -> & Hkv2).
        rewrite (Hblock kv1 Hkv1). specialize (Hlow kv2 Hkv2). lia.
      * clear -Hblock. induction (map_range content) as [|kv l IHl];
          [constructor|].
        csimpl. constructor.
        -- apply IHl. intros kv' Hkv'. apply Hblock. by right.
        -- apply Forall_forall. intros x Hx.
           apply list_elem_of_fmap in Hx as (kv' & -> & Hkv').
           rewrite (Hblock kv) by by left.
           rewrite (Hblock kv') by by right. done.
      * exact Hsorted.
    + intros kv [Hkv|Hkv]%elem_of_app.
      * by rewrite (Hblock kv Hkv).
      * specialize (Hlow kv Hkv). lia.
  - split; [exact Hsorted|]. intros kv Hkv. specialize (Hlow kv Hkv). lia.
Qed.

(** X8: [All] (and so [Range]) walks the shards in index order: in the
    sequence of pairs it yields, the shard index of the key never goes
    down. *)
Theorem X8_walk_in_shard_order c σ :
  valid c σ →
  ∃ kvs, collect_pairs c σ = Some (kvs, σ) ∧
         StronglySorted le (entry_shard c <$> kvs).
Proof.
  intros Hv. exists (entries c σ). split; [by apply collect_pairs_run|].
  by apply (shard_entries_sorted c σ (shards c) 0%nat).
Qed.

(** *** Insert *)

Lemma Insert_seq_of_list c (l : list (K * V)) : ∀ σ,
  Insert c (seq_of_list l) σ = mutate c ((λ kv, MSet kv.1 kv.2) <$> l) σ.
Proof.
  unfold Insert. induction l as [|[k v] l IH]; intros σ; [done|].
  simpl. unfold bind at 1 2 4.
  destruct (Set_ c k v σ) as [[[] σ1]|]; [|done]. simpl. apply IH.
Qed.

Lemma Insert_seq_ignoring c (l : list (K * V)) : ∀ σ,
  Insert c (seq_ignoring l) σ = mutate c ((λ kv, MSet kv.1 kv.2) <$> l) σ.
Proof.
  unfold Insert. induction l as [|[k v] l IH]; intros σ; [done|].
  simpl. unfold bind at 1 2 4.
  destruct (Set_ c k v σ) as [[[] σ1]|]; [|done]. simpl. apply IH.
Qed.

Lemma mutate_sets_Get c (l : list (K * V)) : ∀ σ,
  valid c σ →
  ∃ σ', mutate c ((λ kv, MSet kv.1 kv.2) <$> l) σ = Some (tt, σ') ∧
        valid c σ' ∧
        ∀ key r, Get c key σ = Some (r, σ) →
          Get c key σ' =
            Some (match (list_to_map (reverse l) : gmap K V) !! key with
                  | Some v => (v, true)
                  | None => r
                  end, σ').
Proof.
  induction l as [|[k v] l IH]; intros σ Hv.
  { exists σ. split_and!; try done. }
  destruct (Set_live c σ k v Hv)
    as (s & sh & content & Hs & Hc & Hm & Hrun & Hv1 & Hget1).
  destruct (IH _ Hv1) as (σ' & Hmut & Hv' & Hgets).
  exists σ'. split_and!; [|done|].
  { csimpl. unfold bind. by rewrite Hrun. }
  intros key r Hget.
  rewrite reverse_cons, list_to_map_app, lookup_union.
  change (list_to_map [(k, v)] : gmap K V) with (<[k := v]> (∅ : gmap K V)).
  destruct (decide (key = k)) as [->|Hne].
  - rewrite (Hgets k (v, true) Hget1), lookup_insert_eq.
    by destruct (list_to_map (reverse l) !! k) as [v'|].
  - destruct (Get_with_map c σ key s sh content (<[k := v]> content))
      as (r' & Hg & Hg'); try done.
    { by eapply list_elem_of_lookup_2. }
    { by rewrite lookup_insert_ne. }
    assert (r' = r) as -> by congruence.
    rewrite (Hgets key r Hg'), lookup_insert_ne, lookup_empty by done.
    by destruct (list_to_map (reverse l) !! key) as [v'|].
Qed.

(** X9: on a key type whose [==] is the identity of values, [Insert] of
    a producer that yields the pairs of a list in order (whether or not
    the producer looks at what [yield] answers) returns and keeps the
    container valid; afterwards [Get] of a key that was yielded gives the
    value of its last pair, and [Get] of any other key gives what it gave
    before. *)
Theorem X9_Insert_applies_pairs_in_order c σ (l : list (K * V)) :
  valid c σ →
  ∃ σ', Insert c (seq_of_list l) σ = Some (tt, σ') ∧
        Insert c (seq_ignoring l) σ = Some (tt, σ') ∧
        valid c σ' ∧
        ∀ key r, Get c key σ = Some (r, σ) →
          Get c key σ' =
            Some (match (list_to_map (reverse l) : gmap K V) !! key with
                  | Some v => (v, true)
                  | None => r
                  end, σ').
Proof.
  intros Hv. destruct (mutate_sets_Get c l σ Hv) as (σ' & Hmut & Hv' & Hgets).
  exists σ'. by rewrite Insert_seq_of_list, Insert_seq_ignoring.
Qed.

(** *** The clone answers like its source *)

(** X10: [Clone] leaves the heap cells of its source alone, and for every
    key [Get] on the clone returns what [Get] on the source returns. *)
Theorem X10_Clone_answers_like_source c σ :
  valid c σ →
  ∃ c' σ', Clone c σ = Some (c', σ') ∧ valid c' σ' ∧
           ∀ key, ∃ r, Get c key σ = Some (r, σ) ∧
                       Get c key σ' = Some (r, σ') ∧
                       Get c' key σ' = Some (r, σ').
Proof.
  intros Hv.
  destruct (Clone_spec c σ Hv)
    as (c' & σ' & Hrun & Hlen & Hv1 & Hv1' & Hsep & Hsame & Hkept).
  exists c', σ'. split_and!; [done..|]. intros key.
  destruct (Get_valid c σ key Hv) as (s & sh & x & Hs & Hc & Hm & Hget).
  destruct (Get_valid c σ' key Hv1) as (s1 & sh1 & x1 & Hs1 & Hc1 & Hm1 & Hget1).
  destruct (Get_valid c' σ' key Hv1') as (t & sh_t & y & Ht & Hct & Hmt & Hget').
  assert (Hidx : shardIndex c' key = shardIndex c key).
  { unfold shardIndex. by rewrite (valid_mask _ _ Hv1'), (valid_mask _ _ Hv), Hlen. }
  rewrite Hidx in Ht. rewrite Hs in Hs1. injection Hs1 as <-.
  assert (Hx1 : x1 = x).
  { apply (f_equal (.!! Z.to_nat (shardIndex c key))) in Hkept.
    unfold contents in Hkept. rewrite !list_lookup_fmap, Hs in Hkept.
    simpl in Hkept. unfold shard_content in Hkept.
    rewrite Hc, Hc1, Hm, Hm1 in Hkept. congruence. }
  assert (Hy : y = x1).
  { apply (f_equal (.!! Z.to_nat (shardIndex c key))) in Hsame.
    unfold contents in Hsame. rewrite !list_lookup_fmap, Hs, Ht in Hsame.
    simpl in Hsame. unfold shard_content in Hsame.
    rewrite Hc1, Hct, Hm1, Hmt in Hsame. congruence. }
  subst. by exists (index_result x key).
Qed.

(** *** EqualFunc in general *)

Lemma maps_equal_result_related (eq : V → V → bool) (x y : gmap K V) :
  maps_equal_result eq x y = true ↔ maps_related eq x y.
Proof.
  unfold maps_equal_result, maps_related. split.
  - destruct (Nat.eqb_spec (size x) (size y)) as [Hsize|]; [|done]. simpl.
    intros Hall. rewrite forallb_forall in Hall.
    assert (Hsub : ∀ k v1, x !! k = Some v1 →
              ∃ v2, y !! k = Some v2 ∧ eq v1 v2 = true).
    { intros k v1 Hk. specialize (Hall (k, v1)). simpl in Hall.
      assert (Hin : In (k, v1) (map_range x))
        by by apply list_elem_of_In, elem_of_map_range.
      specialize (Hall Hin). destruct (y !! k) as [v2|]; [by exists v2|done]. }
    assert (Hdom : dom x ≡ dom y).
    { apply set_subseteq_size_equiv.
      - intros k [v1 Hk]%elem_of_dom. destruct (Hsub k v1 Hk) as (v2 & ? & _).
        apply elem_of_dom. by eexists.
      - rewrite !size_dom. lia. }
    intros k. destruct (x !! k) as [v1|] eqn:Hk.
    + destruct (Hsub k v1 Hk) as (v2 & -> & ?). done.
    + destruct (y !! k) as [v2|] eqn:Hk'; [|done].
      assert (k ∈ dom x) as [? ?]%elem_of_dom; [|congruence].
      rewrite Hdom. apply elem_of_dom. by eexists.
  - intros Hrel.
    assert (Hdom : dom x ≡ dom y).
    { intros k. rewrite !elem_of_dom. specialize (Hrel k).
      destruct (x !! k), (y !! k); try done; split; intros [? ?]; done. }
    assert (Hsize : size x = size y).
    { rewrite <- !size_dom at 1. by rewrite Hdom. }
    rewrite Hsize, Nat.eqb_refl. simpl.
    apply forallb_forall. intros [k v1] Hin. simpl.
    apply list_elem_of_In, elem_of_map_range in Hin.
    specialize (Hrel k). rewrite Hin in Hrel. by destruct (y !! k).
Qed.

Lemma maps_EqualFunc_run m1 m2 eq σ (x y : gmap K V) :
  map_cells σ !! m1 = Some x → map_cells σ !! m2 = Some y →
  maps_EqualFunc m1 m2 eq σ = Some (maps_equal_result eq x y, σ).
Proof.
  intros H1 H2. unfold maps_EqualFunc, load_map, bind, maps_equal_result.
  rewrite H1, H2. by destruct (negb (size x =? size y)%nat).
Qed.

(** One round of the comparing loop; the two shards may be the same
    object, which is then read-locked twice. *)
Lemma EqualFunc_loop_step other eq (i : nat) s ss σ sh t sh_t x y :
  shard_cells σ !! s = Some sh → rw_writer sh = false →
  shards other !! i = Some t →
  shard_cells σ !! t = Some sh_t → rw_writer sh_t = false →
  map_cells σ !! items sh = Some x →
  map_cells σ !! items sh_t = Some y →
  EqualFunc_loop other eq i (s :: ss) σ =
    if maps_equal_result eq x y then EqualFunc_loop other eq (S i) ss σ
    else Some (false, σ).
Proof.
  intros Hc Hw Ht Hct Hwt Hm Hmt. simpl EqualFunc_loop.
  unfold RLock, RUnlock, slice_index, shard_items,
    load_shard, store_shard, bind, ret, panic.
  destruct (decide (t = s)) as [->|Hne].
  - assert (sh_t = sh) as -> by congruence.
    assert (y = x) as -> by congruence.
    repeat (simpl; rewrite ?Hc, ?Hw, ?Ht, ?lookup_insert_eq,
              ?(maps_EqualFunc_run (items sh) (items sh) eq _ x x) by done).
    match goal with
    | |- context [mkHeap ?cells (map_cells σ)] =>
        replace (mkHeap cells (map_cells σ)) with σ
    end.
    { by destruct (maps_equal_result eq x x). }
    rewrite !insert_insert_eq, <- Hw, shard_eta, insert_id by done.
    by rewrite heap_eta.
  - repeat (simpl; rewrite ?Hc, ?Hw, ?Ht, ?Hct, ?Hwt,
              ?lookup_insert_eq,
              ?(lookup_insert_ne _ s t), ?(lookup_insert_ne _ t s),
              ?(maps_EqualFunc_run (items sh) (items sh_t) eq _ x y) by done).
    match goal with
    | |- context [mkHeap ?cells (map_cells σ)] =>
        replace (mkHeap cells (map_cells σ)) with σ
    end.
    { by destruct (maps_equal_result eq x y). }
    rewrite <- (heap_eta σ) at 1. f_equal.
    apply map_eq. intros z. rewrite !lookup_insert.
    repeat case_decide; subst; rewrite ?Hc, ?Hct; try done; f_equal.
    + by rewrite <- Hw, shard_eta.
    + by rewrite <- Hwt, shard_eta.
Qed.

Lemma EqualFunc_loop_run other eq ss : ∀ (i : nat) σ,
  (∀ j s, ss !! j = Some s →
     ∃ sh t sh_t (x y : gmap K V),
       shard_cells σ !! s = Some sh ∧ rw_writer sh = false ∧
       shards other !! (i + j)%nat = Some t ∧
       shard_cells σ !! t = Some sh_t ∧ rw_writer sh_t = false ∧
       map_cells σ !! items sh = Some x ∧
       map_cells σ !! items sh_t = Some y) →
  ∃ b, EqualFunc_loop other eq i ss σ = Some (b, σ) ∧
       (b = true ↔
        ∀ j s t x y, ss !! j = Some s → shards other !! (i + j)%nat = Some t →
          shard_content σ s = Some x → shard_content σ t = Some y →
          maps_related eq x y).
Proof.
  induction ss as [|s ss IH]; intros i σ Hss.
  { exists true. split; [done|]. split; [|done]. by intros _ [|?] ?????. }
  destruct (Hss 0%nat s eq_refl)
    as (sh & t & sh_t & x & y & Hc & Hw & Ht & Hct & Hwt & Hm & Hmt).
  rewrite Nat.add_0_r in Ht.
  rewrite (EqualFunc_loop_step other eq i s ss σ sh t sh_t x y) by done.
  assert (Hx : shard_content σ s = Some x) by (unfold shard_content; by rewrite Hc).
  assert (Hy : shard_content σ t = Some y) by (unfold shard_content; by rewrite Hct).
  destruct (maps_equal_result eq x y) eqn:Hres.
  - destruct (IH (S i) σ) as (b & Hrun & Hb).
    { intros j s' Hj. destruct (Hss (S j) s' Hj)
        as (sh' & t' & sh_t' & x' & y' & ? & ? & Ht' & ?).
      rewrite Nat.add_succ_r in Ht'. by exists sh', t', sh_t', x', y'. }
    exists b. split; [done|]. rewrite Hb. split.
    + intros Hall [|j] s' t' x' y' Hj Ht' Hx' Hy'.
      * rewrite Nat.add_0_r, Ht in Ht'. injection Ht' as <-.
        injection Hj as <-. rewrite Hx in Hx'. rewrite Hy in Hy'.
        injection Hx' as <-. injection Hy' as <-.
        by apply maps_equal_result_related.
      * rewrite Nat.add_succ_r in Ht'. by eapply (Hall j s' t').
    + intros Hall j s' t' x' y' Hj Ht' Hx' Hy'.
      eapply (Hall (S j) s' t'); try done. by rewrite Nat.add_succ_r.
  - exists false. split; [done|]. split; [done|]. intros Hall.
    assert (Hrel : maps_related eq x y).
    { eapply (Hall 0%nat s t); try done. by rewrite Nat.add_0_r. }
    apply maps_equal_result_related in Hrel. congruence.
Qed.

Lemma contents_lookup c σ (i : nat) (x : gmap K V) :
  contents c σ !! i = Some (Some x) ↔
  ∃ s, shards c !! i = Some s ∧ shard_content σ s = Some x.
Proof.
  unfold contents. rewrite list_lookup_fmap.
  destruct (shards c !! i) as [s|]; simpl.
  - split; [intros [= Hx]; by exists s|intros (s' & [= <-] & ->); done].
  - split; [done|by intros (s' & ? & _)].
Qed.

(** What [EqualFunc] computes on two valid containers, which may be one
    and the same. *)
Lemma EqualFunc_characterised c c' σ eq :
  valid c σ → valid c' σ →
  ∃ b, EqualFunc c c' eq σ = Some (b, σ) ∧
       (b = true ↔
        length (shards c) = length (shards c') ∧
        ∀ i x y, contents c σ !! i = Some (Some x) →
                 contents c' σ !! i = Some (Some y) → maps_related eq x y).
Proof.
  intros Hv Hv'. unfold EqualFunc.
  destruct (Nat.eqb_spec (length (shards c)) (length (shards c'))) as [Hlen|Hlen];
    simpl.
  2: { exists false. split; [done|]. split; [done|]. by intros [? _]. }
  destruct (EqualFunc_loop_run c' eq (shards c) 0%nat σ) as (b & Hrun & Hb).
  { intros j s Hj. simpl.
    destruct (lookup_lt_is_Some_2 (shards c') j) as [t Ht].
    { rewrite <- Hlen. by eapply lookup_lt_Some. }
    destruct (valid_readable c σ s Hv) as (sh & x & ? & ? & ?);
      [by eapply list_elem_of_lookup_2|].
    destruct (valid_readable c' σ t Hv') as (sh_t & y & ? & ? & ?);
      [by eapply list_elem_of_lookup_2|].
    by exists sh, t, sh_t, x, y. }
  exists b. split; [done|]. rewrite Hb. simpl. split.
  - intros Hall. split; [done|]. intros i x y Hx Hy.
    apply contents_lookup in Hx as (s & Hs & Hx).
    apply contents_lookup in Hy as (t & Ht & Hy).
    by eapply (Hall i s t).
  - intros [_ Hall] j s t x y Hs Ht Hx Hy.
    apply (Hall j x y); apply contents_lookup; by eexists.
Qed.

(** X11: on two valid containers [EqualFunc] returns, leaves the heap and
    every mutex as they were (also when it answers false, and also when
    the two containers are one and the same), and answers true exactly
    when the shard counts are equal and, index by index, the two shards
    have the same keys with values that pass the test. *)
Theorem X11_EqualFunc_compares_shard_by_shard c c' σ eq :
  valid c σ → valid c' σ →
  ∃ b, EqualFunc c c' eq σ = Some (b, σ) ∧
       (b = true ↔
        length (shards c) = length (shards c') ∧
        ∀ i x y, contents c σ !! i = Some (Some x) →
                 contents c' σ !! i = Some (Some y) → maps_related eq x y).
Proof. apply EqualFunc_characterised. Qed.

Lemma maps_related_refl (eq : V → V → bool) (x : gmap K V) :
  (∀ a, eq a a = true) → maps_related eq x x.
Proof. intros Hrefl k. by destruct (x !! k). Qed.

(** X12: on a key type whose [==] is the identity of values, a valid
    container compared with itself under a reflexive value test is equal,
    and the heap is left as it was, although each shard is then
    read-locked a second time while its read lock is held. *)
Theorem X12_EqualFunc_with_itself c σ eq :
  valid c σ → (∀ a, eq a a = true) →
  EqualFunc c c eq σ = Some (true, σ).
Proof.
  intros Hv Hrefl.
  destruct (EqualFunc_characterised c c σ eq Hv Hv) as (b & Hrun & Hb).
  assert (b = true) as ->; [|done].
  apply Hb. split; [done|]. intros i x y Hx Hy.
  assert (y = x) as -> by congruence. by apply maps_related_refl.
Qed.

Lemma Get_by_contents c σ key :
  valid c σ →
  ∃ x, contents c σ !! Z.to_nat (shardIndex c key) = Some (Some x) ∧
       Get c key σ = Some (index_result x key, σ).
Proof.
  intros Hv.
  destruct (Get_valid c σ key Hv) as (s & sh & x & Hs & Hc & Hm & Hget).
  exists x. split; [|done]. apply contents_lookup. exists s. split; [done|].
  unfold shard_content. by rewrite Hc.
Qed.

(** X13: after [Set] on a fresh clone of a key that [Get] does not find
    in the source, [EqualFunc] of the two containers answers false in
    either direction, whatever the value test. *)
Theorem X13_EqualFunc_sees_an_added_key c σ key v eq :
  valid c σ → ¬ live c σ key →
  ∃ c' σ1 σ2,
    Clone c σ = Some (c', σ1) ∧ Set_ c' key v σ1 = Some (tt, σ2) ∧
    EqualFunc c c' eq σ2 = Some (false, σ2) ∧
    EqualFunc c' c eq σ2 = Some (false, σ2).
Proof.
  intros Hv Hdead.
  destruct (Clone_spec c σ Hv)
    as (c' & σ1 & Hrun & Hlen & Hv1 & Hv1' & Hsep & Hsame & Hkept).
  destruct (mutate1_spec c' σ1 (MSet key v) Hv1') as (σ2 & Hset & Hv2' & Hother).
  destruct (Hother c Hv1 (separate_sym _ _ _ Hsep)) as (Hv2 & _ & Hcont).
  simpl in Hset.
  assert (Hidx : shardIndex c' key = shardIndex c key).
  { unfold shardIndex.
    by rewrite (valid_mask _ _ Hv1'), (valid_mask _ _ Hv), Hlen. }
  destruct (Get_by_contents c σ key Hv) as (x0 & Hx0 & Hget0).
  destruct (Get_by_contents c σ2 key Hv2) as (x & Hx & Hget).
  destruct (Get_by_contents c' σ2 key Hv2') as (y & Hy & Hget').
  rewrite Hidx in Hy.
  assert (x = x0) as -> by (rewrite Hcont, Hkept in Hx; congruence).
  assert (Hxk : x0 !! key = None).
  { destruct (x0 !! key) as [v0|] eqn:Hk; [|done].
    destruct Hdead. exists v0. rewrite Hget0. unfold index_result.
    by rewrite Hk. }
  assert (Hyk : y !! key = Some v).
  { destruct (Set_live c' σ1 key v Hv1')
      as (s & sh & content & _ & _ & _ & Hset' & _ & Hlive).
    rewrite Hset in Hset'. injection Hset' as Hσ. rewrite <- Hσ in Hlive.
    rewrite Hget' in Hlive. injection Hlive as Hr. unfold index_result in Hr.
    destruct (y !! key); congruence. }
  exists c', σ1, σ2. split_and!; [done..| |].
  - destruct (EqualFunc_characterised c c' σ2 eq Hv2 Hv2') as ([] & Hres & Hb);
      [|done].
    destruct Hb as [Hb _]. destruct (Hb eq_refl) as [_ Hall].
    specialize (Hall _ _ _ Hx Hy key). by rewrite Hxk, Hyk in Hall.
  - destruct (EqualFunc_characterised c' c σ2 eq Hv2' Hv2) as ([] & Hres & Hb);
      [|done].
    destruct Hb as [Hb _]. destruct (Hb eq_refl) as [_ Hall].
    specialize (Hall _ _ _ Hy Hx key). by rewrite Hxk, Hyk in Hall.
Qed.

(** *** Shard counts that are not powers of two *)

(** When [n] is not a power of two, some number below [n] has a bit that
    [n - 1] lacks, so no masked hash is equal to it. *)
Lemma mask_skips_index (n : Z) :
  1 ≤ n < 2 ^ 32 → ¬ is_pow2 n →
  ∃ i, 0 ≤ i < n ∧ ∀ h, Z.land h (mask_of n) ≠ i.
Proof.
  intros Hn Hnp.
  assert (Hmask : mask_of n = n - 1).
  { unfold mask_of, fnv.uint32.
    by rewrite (Z.mod_small n), (Z.mod_small (n - 1)) by lia. }
  assert (n ≠ 1) by (intros ->; apply Hnp; by exists 0).
  assert (n ≠ 2) by (intros ->; apply Hnp; by exists 1).
  set (m := n - 1). assert (Hm : 2 ≤ m) by (unfold m; lia).
  set (k := Z.log2 m).
  destruct (Z.log2_spec m ltac:(lia)) as [Hlo Hhi]. fold k in Hlo, Hhi.
  assert (Hk : 0 ≤ k) by apply Z.log2_nonneg.
  set (i := Z.ldiff (Z.ones (Z.succ k)) m).
  assert (Hland : Z.land i m = 0).
  { apply Z.bits_inj'. intros j Hj. unfold i.
    rewrite Z.land_spec, Z.ldiff_spec, Z.bits_0.
    by destruct (Z.testbit m j), (Z.testbit (Z.ones (Z.succ k)) j). }
  assert (Hi0 : 0 ≤ i).
  { unfold i. apply Z.ldiff_nonneg. left. rewrite Z.ones_equiv.
    assert (0 < 2 ^ Z.succ k) by (apply Z.pow_pos_nonneg; lia). lia. }
  assert (Hik : i ≤ Z.ones k).
  { apply (Z.ldiff_le i (Z.ones k)).
    - rewrite Z.ones_equiv.
      assert (0 < 2 ^ k) by (apply Z.pow_pos_nonneg; lia). lia.
    - apply Z.bits_inj'. intros j Hj. unfold i.
      rewrite !Z.ldiff_spec, Z.bits_0.
      destruct (decide (j < k)) as [Hlt|Hge].
      + rewrite (Z.ones_spec_low k j) by lia. simpl. apply andb_false_r.
      + destruct (decide (j = k)) as [->|Hne].
        * assert (Hbit : Z.testbit m k = true) by (apply Z.bit_log2; lia).
          rewrite Hbit. simpl. by rewrite andb_false_r.
        * rewrite (Z.ones_spec_high (Z.succ k) j) by lia. done. }
  assert (Hinz : i ≠ 0).
  { intros Hz. unfold i in Hz.
    apply Z.ldiff_le in Hz; [|lia]. rewrite Z.ones_equiv in Hz.
    apply Hnp. exists (Z.succ k). split; [lia|]. unfold m in *. lia. }
  exists i. split.
  - rewrite Z.ones_equiv in Hik. unfold m in *. lia.
  - intros h Hh. rewrite Hmask in Hh. fold m in Hh.
    apply Hinz. rewrite <- Hland. rewrite <- Hh at 2.
    by rewrite <- Z.land_assoc, Z.land_diag.
Qed.

(** X14: when the shard count is below [2^32] and is not a power of two,
    the container has a shard that [getShard] returns for no key at all,
    in whatever heap it is called. *)
Theorem X14_some_shard_is_never_used (n : Z) σ :
  1 ≤ n < 2 ^ 32 → ¬ is_pow2 n →
  ∃ c σ' s,
    NewConcurrentHashMap n σ = Some (c, σ') ∧ s ∈ shards c ∧
    ∀ key (τ : Heap K V), getShard c key τ ≠ Some (s, τ).
Proof.
  intros Hn Hnp.
  destruct (New_valid n σ ltac:(lia))
    as (c & σ' & Hrun & Hv & Hlen & Hmask & _).
  destruct (mask_skips_index n Hn Hnp) as (i & Hi & Hskip).
  destruct (lookup_lt_is_Some_2 (shards c) (Z.to_nat i)) as [s Hs]; [lia|].
  exists c, σ', s. split_and!; [done|by eapply list_elem_of_lookup_2|].
  intros key τ. unfold getShard.
  destruct (shards c !! Z.to_nat (shardIndex c key)) as [s'|] eqn:Hs'; [|done].
  intros [= ->].
  pose proof (NoDup_lookup _ _ _ _ (valid_NoDup _ _ Hv) Hs Hs') as Heq.
  apply (Hskip (keyHash key)). unfold shardIndex in Heq. rewrite Hmask in Heq.
  pose proof (land_le_r (keyHash key) (mask_of n)
                ltac:(pose proof (mask_of_range n); lia)).
  lia.
Qed.

(** *** The container without shards *)

(** X15: on the container that the constructor returns for the shard
    count 0, [Get], [Set] and [Delete] panic for every key, while
    [Range] returns without calling its visitor, [Collect] returns the
    empty map, [Clone] returns another container without shards and
    [EqualFunc] of the two answers true. *)
Theorem X15_container_without_shards σ :
  ∃ c, NewConcurrentHashMap 0 σ = Some (c, σ) ∧ shards c = [] ∧
       (∀ key v, Get c key σ = None ∧ Set_ c key v σ = None ∧
                 Delete c key σ = None) ∧
       (∀ St (f : K → V → St → St * bool) st,
          Range c (traced f) ([], st) σ = Some (([], st), σ)) ∧
       Collect c σ = Some (∅, σ) ∧
       Clone c σ = Some (c, σ) ∧
       ∀ eq, EqualFunc c c eq σ = Some (true, σ).
Proof. exists (mkCHM [] (2 ^ 32 - 1)). by split_and!. Qed.

(** *** Two containers in one heap *)

(** A constructor call next to a valid container: the old container
    stays valid and the new one shares nothing with it. *)
Lemma New_separate c1 σ1 (n : Z) :
  valid c1 σ1 → 1 ≤ n →
  ∃ c2 σ2, NewConcurrentHashMap n σ1 = Some (c2, σ2) ∧
           valid c1 σ2 ∧ valid c2 σ2 ∧ separate c1 c2 σ2 ∧
           contents c1 σ2 = contents c1 σ1.
Proof.
  intros Hv1 Hn.
  destruct (New_valid n σ1 Hn)
    as (c2 & σ2 & Hrun2 & Hv2 & _ & _ & _ & Hsub & Hmsub & Hnew).
  assert (Hcells : ∀ s, s ∈ shards c1 →
            shard_cells σ2 !! s = shard_cells σ1 !! s).
  { intros s Hs. destruct (valid_cells _ _ Hv1 s Hs) as (sh & _ & Hc & _).
    by rewrite Hc, (lookup_weaken _ _ _ _ Hc Hsub). }
  destruct (valid_frame_weaken c1 σ1 σ2 Hv1 Hcells Hmsub) as [Hv1' Hsame].
  exists c2, σ2. split_and!; try done.
  - split.
    + intros s Hs Hs2. destruct (Hnew s Hs2) as [Hfresh _]. apply Hfresh.
      destruct (valid_cells _ _ Hv1 s Hs) as (sh & _ & Hc & _).
      apply elem_of_dom. by eexists.
    + intros s t sh sh_t Hs Ht Hc Hct Heq.
      destruct (Hnew t Ht) as (_ & sh_t' & Hct' & Hfresh).
      assert (sh_t' = sh_t) as -> by congruence.
      apply Hfresh. rewrite <- Heq. rewrite Hcells in Hc by done.
      destruct (valid_cells _ _ Hv1 s Hs) as (sh' & x & Hc' & _ & Hm).
      assert (sh' = sh) as -> by congruence.
      apply elem_of_dom. by eexists.
  - unfold contents. apply list_fmap_ext. intros j s Hj.
    apply Hsame. by eapply list_elem_of_lookup_2.
Qed.

(** X16: two constructor calls give two containers that have no shard and
    no built-in map in common: both are valid, and whatever sequence of
    [Set] and [Delete] calls is made on one of them, the contents of the
    other stay as they were. *)
Theorem X16_constructed_containers_are_separate (n1 n2 : Z) σ :
  1 ≤ n1 → 1 ≤ n2 →
  ∃ c1 σ1 c2 σ2,
    NewConcurrentHashMap n1 σ = Some (c1, σ1) ∧
    NewConcurrentHashMap n2 σ1 = Some (c2, σ2) ∧
    valid c1 σ2 ∧ valid c2 σ2 ∧ separate c1 c2 σ2 ∧
    (∀ ms, ∃ σ3, mutate c1 ms σ2 = Some (tt, σ3) ∧
                 contents c2 σ3 = contents c2 σ2) ∧
    (∀ ms, ∃ σ3, mutate c2 ms σ2 = Some (tt, σ3) ∧
                 contents c1 σ3 = contents c1 σ2).
Proof.
  intros Hn1 Hn2.
  destruct (New_valid n1 σ Hn1) as (c1 & σ1 & Hrun1 & Hv1 & _).
  destruct (New_separate c1 σ1 n2 Hv1 Hn2)
    as (c2 & σ2 & Hrun2 & Hv1' & Hv2 & Hsep & _).
  exists c1, σ1, c2, σ2. split_and!; try done.
  - intros ms. destruct (mutate_spec c1 ms σ2 Hv1') as (σ3 & Hmut & _ & Hother).
    destruct (Hother c2 Hv2 Hsep) as (_ & _ & Hcont). by exists σ3.
  - intros ms. destruct (mutate_spec c2 ms σ2 Hv2) as (σ3 & Hmut & _ & Hother).
    destruct (Hother c1 Hv1' (separate_sym _ _ _ Hsep)) as (_ & _ & Hcont).
    by exists σ3.
Qed.

(** *** Keys and Values stop when they are told to *)

Lemma visit_items_ext {St} (f g : K → V → St → St * bool) l st :
  (∀ k v st, f k v st = g k v st) → visit_items f l st = visit_items g l st.
Proof.
  intros Hfg. revert st. induction l as [|[k v] l IH]; intros st; [done|].
  simpl. rewrite Hfg. destruct (g k v st) as [st' []]; [apply IH|done].
Qed.

Lemma traced_log_shape {St} (f : K → V → St → St * bool) l st :
  ∃ log st',
    (visit_items (traced f) l ([], st)).1 = (log, st') ∧
    (length log ≤ length l)%nat ∧
    ∀ i, log !! i = Some false → S i = length log.
Proof.
  destruct (visit_items_traced f l [] st) as (log & st' & continue & Hrun & Hlog).
  exists log, st'. rewrite Hrun. split; [done|]. destruct continue.
  - subst log. rewrite length_replicate. split; [done|].
    intros i Hi. apply lookup_replicate in Hi as [? _]. done.
  - destruct Hlog as (n & Hn & ->).
    rewrite length_app, length_replicate. simpl. split; [lia|].
    intros i Hi. destruct (decide (i < n)%nat) as [Hlt|Hge].
    + rewrite lookup_app_l in Hi by (rewrite length_replicate; lia).
      apply lookup_replicate in Hi as [? _]. done.
    + apply lookup_lt_Some in Hi.
      rewrite length_app, length_replicate in Hi. simpl in Hi. lia.
Qed.

(** X17: [Keys] and [Values] return and leave the heap and every mutex as
    they were, whatever the consumer answers; the consumer is called at
    most once per entry, and a call that answers false is the last one. *)
Theorem X17_Keys_Values_stop_early {St}
    c σ (yk : K → St → St * bool) (yv : V → St → St * bool) st (n : nat) :
  valid c σ → count_entries c σ = Some (n, σ) →
  (∃ log st', Keys c (traced1 yk) ([], st) σ = Some ((log, st'), σ) ∧
              (length log ≤ n)%nat ∧
              ∀ i, log !! i = Some false → S i = length log) ∧
  (∃ log st', Values c (traced1 yv) ([], st) σ = Some ((log, st'), σ) ∧
              (length log ≤ n)%nat ∧
              ∀ i, log !! i = Some false → S i = length log).
Proof.
  intros Hv Hcount. rewrite count_entries_run in Hcount by done.
  injection Hcount as <-. split.
  - destruct (traced_log_shape (λ k (_ : V), yk k) (entries c σ) st)
      as (log & st' & Hrun & Hlen & Hlast).
    exists log, st'. split; [|done].
    unfold Keys. rewrite Keys_shards_visit.
    rewrite visit_shards_run by (intros s; by apply valid_readable).
    fold (entries c σ).
    rewrite (visit_items_ext _ (traced (λ k (_ : V), yk k)));
      [by rewrite Hrun|].
    by intros k v [log0 st0].
  - destruct (traced_log_shape (λ (_ : K) v, yv v) (entries c σ) st)
      as (log & st' & Hrun & Hlen & Hlast).
    exists log, st'. split; [|done].
    unfold Values. rewrite Values_shards_visit.
    rewrite visit_shards_run by (intros s; by apply valid_readable).
    fold (entries c σ).
    rewrite (visit_items_ext _ (traced (λ (_ : K) v, yv v)));
      [by rewrite Hrun|].
    by intros k v [log0 st0].
Qed.

(** *** Insert fed by All *)

Lemma Set_blocked c σ key v s sh :
  shards c !! Z.to_nat (shardIndex c key) = Some s →
  shard_cells σ !! s = Some sh → rw_readers sh ≠ 0%nat →
  Set_ c key v σ = None.
Proof.
  intros Hs Hc Hr.
  unfold Set_, getShard, Lock, load_shard, bind, ret, panic.
  rewrite Hs. simpl. rewrite Hc. simpl.
  destruct (rw_writer sh); [done|]. by destruct (rw_readers sh).
Qed.

Lemma All_shards_blocked c σ ss :
  valid c σ → (∀ s, s ∈ ss → s ∈ shards c) →
  (∃ s content k v, s ∈ ss ∧ shard_content σ s = Some content ∧
                    content !! k = Some v) →
  All_shards (λ k v, Set_ c k v ;;; ret true) ss σ = None.
Proof.
  intros Hv. induction ss as [|s ss IH]; intros Hss (s0 & content0 & k0 & v0 & Hin & Hcont0 & Hk0).
  { by apply elem_of_nil in Hin. }
  destruct (valid_cells _ _ Hv s) as (sh & content & Hc & [Hr Hw] & Hm);
    [apply Hss; by left|].
  assert (Hcont : shard_content σ s = Some content)
    by (unfold shard_content; by rewrite Hc).
  simpl All_shards.
  unfold RLock, RUnlock, shard_items, load_shard, store_shard, load_map,
    bind, ret, panic.
  repeat (simpl; rewrite ?Hc, ?Hw, ?Hm, ?lookup_insert_eq).
  destruct (map_range content) as [|[k v] rest] eqn:Hrange.
  - repeat (simpl; rewrite ?Hc, ?Hw, ?Hr, ?Hm, ?lookup_insert_eq).
    rewrite insert_insert_eq, <- Hw, <- Hr, shard_eta, insert_id, heap_eta
      by done.
    apply IH; [intros s' Hs'; apply Hss; by right|].
    apply elem_of_cons in Hin as [->|Hin]; [|by exists s0, content0, k0, v0].
    assert (content0 = content) as -> by congruence.
    apply elem_of_map_range in Hk0. rewrite Hrange in Hk0.
    by apply elem_of_nil in Hk0.
  - simpl. unfold bind.
    rewrite (Set_blocked c _ k v s (mkShard (S (rw_readers sh)) false (items sh)));
      [done| |by simpl; rewrite lookup_insert_eq|done].
    destruct (list_elem_of_lookup_1 (shards c) s) as [i Hi];
      [apply Hss; by left|].
    rewrite (valid_routed _ _ Hv i s content k Hi Hcont); [done|].
    exists v. apply elem_of_map_range. rewrite Hrange. by left.
Qed.

(** X18: [Insert] on a container, fed with the [All] sequence of the same
    container, does not return when the container holds an entry: the
    walk yields the first entry with the read lock of its shard held, and
    the [Set] that [Insert] makes for it waits for the write lock of that
    same shard. *)
Theorem X18_Insert_of_own_All_blocks c σ key :
  valid c σ → live c σ key → Insert c (All_seq c) σ = None.
Proof.
  intros Hv Hlive. unfold Insert, All_seq.
  apply All_shards_blocked; [done|done|].
  apply live_iff_entries in Hlive; [|done].
  apply list_elem_of_fmap in Hlive as ([k v] & -> & Hin).
  apply elem_of_shard_entries in Hin as (s & content & Hs & Hcont & Hk).
  by exists s, content, k, v.
Qed.









End Extras.

(** ** Built-in maps where [==] is the identity

    On a key type whose [==] decides the identity of values, the built-in
    map with keys compared by [==] is the [gmap] of its entries: an index,
    an assignment, a deletion and [maps.EqualFunc] on the one are those on
    the other. *)

Section Identity.
Context {K V : Type} `{Countable K} `{!GoEq K} `{!ZeroValue V}.
Context `{!RangeOrder K V}.
Hypothesis go_eq_identity : ∀ a b : K, go_eq a b = bool_decide (a = b).

Lemma find_identity (content : list (K * V)) (key : K) :
  snd <$> List.find (λ kv, go_eq kv.1 key) content =
  (list_to_map content : gmap K V) !! key.
Proof.
  induction content as [|[k v] l IH]; [done|].
  cbn [List.find list_to_map foldr fst curry]. rewrite go_eq_identity.
  case_bool_decide as Hk.
  - subst k. by rewrite lookup_insert_eq.
  - by rewrite lookup_insert_ne.
Qed.

Lemma index_result_identity (content : list (K * V)) (key : K) :
  comparable.index_result content key =
  index_result (list_to_map content) key.
Proof.
  unfold comparable.index_result, index_result.
  rewrite <- find_identity.
  by destruct (List.find (λ kv, go_eq kv.1 key) content) as [[k v]|].
Qed.

Lemma delete_identity (content : list (K * V)) (key : K) :
  (list_to_map (comparable.without key content) : gmap K V) =
  delete key (list_to_map content).
Proof.
  induction content as [|[k v] l IH].
  { symmetry. apply delete_empty. }
  assert (Hcons : (list_to_map ((k, v) :: l) : gmap K V)
                  = <[k := v]> (list_to_map l)) by done.
  rewrite Hcons. unfold comparable.without in *. simpl.
  rewrite go_eq_identity. case_bool_decide as Hk; simpl.
  - subst k. by rewrite IH, delete_insert_eq.
  - rewrite delete_insert_ne by done. rewrite <- IH. done.
Qed.

Lemma assign_identity (content : list (K * V)) (key : K) (value : V) :
  (list_to_map (comparable.assign key value content) : gmap K V) =
  <[key := value]> (list_to_map content).
Proof.
  unfold comparable.assign.
  change (list_to_map ((key, value) :: comparable.without key content)
            : gmap K V)
    with (<[key := value]>
            (list_to_map (comparable.without key content) : gmap K V)).
  by rewrite delete_identity, insert_delete_eq.
Qed.

Lemma without_keys (content : list (K * V)) (key : K) :
  NoDup content.*1 →
  NoDup (comparable.without key content).*1 ∧
  key ∉ (comparable.without key content).*1.
Proof.
  intros Hnd.
  assert (Hsub : ∀ k, k ∈ (comparable.without key content).*1 →
                      k ∈ content.*1 ∧ k ≠ key).
  { intros k Hk. apply list_elem_of_fmap in Hk as ([k' v] & -> & Hin).
    apply list_elem_of_In, filter_In in Hin as [Hin Hne].
    simpl in Hne. rewrite go_eq_identity in Hne.
    case_bool_decide; [done|]. split; [|done].
    apply list_elem_of_fmap. exists (k', v). split; [done|].
    by apply list_elem_of_In. }
  split; [|intros Hk; by destruct (Hsub key Hk)].
  clear Hsub. induction content as [|[k v] l IH]; [constructor|].
  apply NoDup_cons in Hnd as [Hk Hnd].
  cbn [comparable.without List.filter fst].
  destruct (negb (go_eq k key)); [|by apply IH].
  csimpl. apply NoDup_cons. split; [|by apply IH].
  intros Hin. apply Hk.
  apply list_elem_of_fmap in Hin as ([k' v'] & -> & Hin).
  apply list_elem_of_In, filter_In in Hin as [Hin _].
  apply list_elem_of_fmap. exists (k', v'). split; [done|].
  by apply list_elem_of_In.
Qed.

Lemma assign_keys (content : list (K * V)) (key : K) (value : V) :
  NoDup content.*1 → NoDup (comparable.assign key value content).*1.
Proof.
  intros Hnd. destruct (without_keys content key Hnd) as [Hnd' Hkey].
  unfold comparable.assign. csimpl. by apply NoDup_cons.
Qed.

Lemma forallb_Permutation {A} (f : A → bool) (l1 l2 : list A) :
  l1 ≡ₚ l2 → forallb f l1 = forallb f l2.
Proof.
  induction 1 as [|a l1 l2 _ IH|a b l|l1 l2 l3 _ IH1 _ IH2]; simpl.
  - done.
  - by rewrite IH.
  - by destruct (f a), (f b).
  - by rewrite IH1.
Qed.

Lemma forallb_agree {A} (f g : A → bool) (l : list A) :
  (∀ a, f a = g a) → forallb f l = forallb g l.
Proof.
  intros Hfg. induction l as [|a l IH]; [done|]. simpl. by rewrite Hfg, IH.
Qed.

Lemma equal_result_identity (eq : V → V → bool) (c1 c2 : list (K * V)) :
  NoDup c1.*1 → NoDup c2.*1 →
  comparable.equal_result eq c1 c2 =
  maps_equal_result eq (list_to_map c1) (list_to_map c2).
Proof.
  intros Hnd1 Hnd2. unfold comparable.equal_result, maps_equal_result.
  rewrite !map_size_list_to_map by done.
  destruct (negb (length c1 =? length c2)%nat); [done|].
  rewrite (forallb_Permutation _ (map_range (list_to_map c1)) c1).
  - apply forallb_agree. intros [k v]. cbn [fst snd].
    rewrite <- (find_identity c2 k).
    by destruct (List.find (λ kv2, go_eq kv2.1 k) c2) as [[k2 v2]|].
  - rewrite map_range_perm. by apply map_to_list_to_map.
Qed.

(** The constructor and the single-key operations on a heap with [==]
    shards do what they do on the heap with [gmap] shards that it stands
    for. *)
Context `{!Formatter K}.

Lemma abstraction_map (σ : comparable.Heap K V) (m : loc) :
  map_cells (abstraction σ) !! m = list_to_map <$> comparable.map_cells σ !! m.
Proof. apply lookup_fmap. Qed.

Lemma new_shards_identity (n : nat) (σ : comparable.Heap K V) :
  new_shards n (abstraction σ) = abstract_result (comparable.new_shards n σ).
Proof.
  revert σ. induction n as [|n IH]; intros σ; [done|].
  set (m := fresh (dom (comparable.map_cells σ))).
  set (s := fresh (dom (comparable.shard_cells σ))).
  set (τ := comparable.mkHeap
              (<[s := mkShard 0 false m]> (comparable.shard_cells σ))
              (<[m := []]> (comparable.map_cells σ))).
  assert (Hτ : abstraction τ =
               mkHeap (<[s := mkShard 0 false m]> (comparable.shard_cells σ))
                      (<[m := ∅]> (list_to_map <$> comparable.map_cells σ))).
  { unfold abstraction, τ. simpl. by rewrite fmap_insert. }
  simpl. unfold bind, make_map, alloc_map, new_shard, ret,
    comparable.make_map, comparable.alloc_map, comparable.new_shard.
  simpl. rewrite dom_fmap_L. fold m s. rewrite <- Hτ, IH. fold τ.
  by destruct (comparable.new_shards n τ) as [[ss σ']|].
Qed.

Lemma New_identity (n : Z) (σ : comparable.Heap K V) :
  NewConcurrentHashMap n (abstraction σ) =
  abstract_result (comparable.NewConcurrentHashMap n σ).
Proof.
  unfold NewConcurrentHashMap, comparable.NewConcurrentHashMap, bind, ret, panic.
  destruct (n <? 0); [done|]. rewrite new_shards_identity.
  by destruct (comparable.new_shards (Z.to_nat n) σ) as [[ss σ']|].
Qed.

Lemma Get_identity c (σ : comparable.Heap K V) (key : K) :
  Get c key (abstraction σ) = abstract_result (comparable.Get c key σ).
Proof.
  unfold Get, getShard, RLock, RUnlock, shard_items, map_index,
    load_shard, store_shard, load_map,
    comparable.Get, comparable.getShard, comparable.RLock,
    comparable.RUnlock, comparable.shard_items, comparable.map_index,
    comparable.load_shard, comparable.store_shard, comparable.load_map,
    bind, ret, panic.
  destruct (shards c !! Z.to_nat (shardIndex c key)) as [s|]; [|done].
  unfold abstraction. simpl.
  destruct (comparable.shard_cells σ !! s) as [sh|] eqn:Hc; [|done].
  simpl. destruct (rw_writer sh) eqn:Hw; [done|].
  repeat (simpl; rewrite ?Hc, ?lookup_insert_eq, ?lookup_fmap).
  destruct (comparable.map_cells σ !! items sh) as [content|] eqn:Hm; [|done].
  repeat (simpl; rewrite ?Hc, ?lookup_insert_eq).
  by rewrite index_result_identity.
Qed.

Lemma Set_identity c (σ : comparable.Heap K V) (key : K) (value : V) :
  Set_ c key value (abstraction σ) =
  abstract_result (comparable.Set_ c key value σ).
Proof.
  unfold Set_, getShard, Lock, Unlock, shard_items, map_assign,
    load_shard, store_shard, load_map, store_map,
    comparable.Set_, comparable.getShard, comparable.Lock,
    comparable.Unlock, comparable.shard_items, comparable.map_assign,
    comparable.load_shard, comparable.store_shard, comparable.load_map,
    comparable.store_map, bind, ret, panic.
  destruct (shards c !! Z.to_nat (shardIndex c key)) as [s|]; [|done].
  unfold abstraction. simpl.
  destruct (comparable.shard_cells σ !! s) as [sh|] eqn:Hc; [|done].
  simpl. destruct (rw_writer sh) eqn:Hw; [done|].
  destruct (rw_readers sh) eqn:Hr; [|done].
  repeat (simpl; rewrite ?Hc, ?lookup_insert_eq, ?lookup_fmap).
  destruct (comparable.map_cells σ !! items sh) as [content|] eqn:Hm; [|done].
  repeat (simpl; rewrite ?Hc, ?Hm, ?lookup_insert_eq, ?lookup_fmap).
  unfold abstraction. simpl. by rewrite fmap_insert, assign_identity.
Qed.

Lemma Delete_identity c (σ : comparable.Heap K V) (key : K) :
  Delete c key (abstraction σ) = abstract_result (comparable.Delete c key σ).
Proof.
  unfold Delete, getShard, Lock, Unlock, shard_items, map_delete,
    load_shard, store_shard, load_map, store_map,
    comparable.Delete, comparable.getShard, comparable.Lock,
    comparable.Unlock, comparable.shard_items, comparable.map_delete,
    comparable.load_shard, comparable.store_shard, comparable.load_map,
    comparable.store_map, bind, ret, panic.
  destruct (shards c !! Z.to_nat (shardIndex c key)) as [s|]; [|done].
  unfold abstraction. simpl.
  destruct (comparable.shard_cells σ !! s) as [sh|] eqn:Hc; [|done].
  simpl. destruct (rw_writer sh) eqn:Hw; [done|].
  destruct (rw_readers sh) eqn:Hr; [|done].
  repeat (simpl; rewrite ?Hc, ?lookup_insert_eq, ?lookup_fmap).
  destruct (comparable.map_cells σ !! items sh) as [content|] eqn:Hm; [|done].
  repeat (simpl; rewrite ?Hc, ?Hm, ?lookup_insert_eq, ?lookup_fmap).
  unfold abstraction. simpl. by rewrite fmap_insert, delete_identity.
Qed.

End Identity.

(** ** The properties on a concrete container *)

Lemma demo_valid : valid demo_map demo_heap.
Proof.
  destruct (New_valid (K := string) (V := Z) 2 demo_heap0 ltac:(lia))
    as (c & σ & Hrun & Hv & _).
  vm_compute in Hrun. injection Hrun as <- <-.
  destruct (mutate_spec _ [MSet "a" 1; MSet "b" 2; MSet "c" 3]%string _ Hv)
    as (σ' & Hmut & Hv' & _).
  vm_compute in Hmut. injection Hmut as <-. exact Hv'.
Qed.

Lemma demo_entries :
  entries demo_map demo_heap = [("c", 3); ("a", 1); ("b", 2)]%string.
Proof. vm_compute. reflexivity. Qed.

Lemma demo_live (key : string) :
  key ∈ ["c"; "a"; "b"]%string ↔ live demo_map demo_heap key.
Proof. rewrite live_iff_entries by apply demo_valid. by rewrite demo_entries. Qed.

Lemma demo_keys_NoDup : NoDup ["c"; "a"; "b"]%string.
Proof.
  pose proof (NoDup_entries_keys _ _ demo_valid) as Hnd.
  by rewrite demo_entries in Hnd.
Qed.

(** The run of the package's example: [Get("two")] gives [2 true],
    [Get("four")] gives [0 false], and after [Delete("one")] a walk shows
    the two keys that are left. *)
Example ExampleConcurrentHashMap :
  fst <$>
    (m <- NewConcurrentHashMap 16 ;;
     Set_ m "one"%string 1 ;;;
     Set_ m "two"%string 2 ;;;
     Set_ m "three"%string 3 ;;;
     two <- Get m "two"%string ;;
     four <- Get m "four"%string ;;
     Delete m "one"%string ;;;
     keys <- Range m (λ key _ keys, (keys ++ [key], true)) [] ;;
     ret (two, four, keys)) (empty_heap (K := string) (V := Z))
  = Some ((2, true), (0, false), ["three"; "two"]%string).
Proof. vm_compute. reflexivity. Qed.

(** The run of the package's test with boolean keys and two shards. *)
Example TestConcurrentHashMapWithBoolKeys :
  fst <$>
    (m <- NewConcurrentHashMap 2 ;;
     Set_ m true 1 ;;;
     Set_ m false 0 ;;;
     t <- Get m true ;;
     f <- Get m false ;;
     Set_ m true 100 ;;;
     t' <- Get m true ;;
     ret (t, f, t')) (empty_heap (K := bool) (V := Z))
  = Some ((1, true), (0, true), (100, true)).
Proof. vm_compute. reflexivity. Qed.

(** ** Routing and key equality *)

(** Keys with the same rendering are routed alike. *)
Lemma shardIndex_rendering {K} `{!Formatter K} c (k1 k2 : K) :
  Sprintf_v k1 = Sprintf_v k2 → shardIndex c k1 = shardIndex c k2.
Proof. unfold shardIndex, keyHash. by intros ->. Qed.

(** In a valid state the shard that holds an entry is the one [getShard]
    picks for its key, so a key has entries in one shard only. *)
Lemma stored_key_routed {K V} `{Countable K} `{!Formatter K}
    c (σ : Heap K V) (i : nat) s content (key : K) :
  valid c σ → shards c !! i = Some s →
  shard_content σ s = Some content → is_Some (content !! key) →
  getShard c key σ = Some (s, σ).
Proof.
  intros Hv Hi Hc Hk. unfold getShard.
  by rewrite (valid_routed _ _ Hv i s content key Hi Hc Hk), Hi.
Qed.

(** C1: the two zeros of [float64] are equal keys ([0.0 == -0.0], and a
    built-in map keeps them under one key), but they are rendered as [0]
    and [-0], and in a container of 16 shards (mask 15) the router sends
    them to the shards of index 15 and of index 8. *)
Theorem C1_equal_keys_routed_apart (ss : list loc) :
  go_eq PosZero NegZero = true ∧
  shardIndex (mkCHM ss (mask_of 16)) PosZero = 15 ∧
  shardIndex (mkCHM ss (mask_of 16)) NegZero = 8.
Proof. by vm_compute. Qed.

(** ** Shard counts *)

Lemma not_pow2_3 : ¬ is_pow2 3.
Proof.
  intros (e & He & Hpow).
  destruct (decide (e = 0)) as [->|]; [done|].
  destruct (decide (e = 1)) as [->|]; [done|].
  assert (2 ^ 2 ≤ 2 ^ e) by (apply Z.pow_le_mono_r; lia). lia.
Qed.

(** C2, as stated, fails: the shard count 3 is not a power
    of two; construction accepts it; and the key ["a"] is routed to shard 0
    although its hash modulo 3 is 1. *)
Lemma C2_counterexample :
  ¬ is_pow2 3 ∧
  fst <$> NewConcurrentHashMap (K := string) (V := Z) 3 empty_heap =
    Some (mkCHM [1; 2; 3]%positive 2) ∧
  shardIndex (mkCHM [1; 2; 3]%positive 2) "a"%string = 0 ∧
  keyHash "a"%string mod 3 = 1.
Proof.
  split; [exact not_pow2_3|]. split_and!; vm_compute; reflexivity.
Qed.

(** C3, as stated, fails: construction with the shard count 0 returns a
    container, one without any shard. *)
Lemma C3_counterexample :
  NewConcurrentHashMap (K := string) (V := Z) 0 empty_heap =
    Some (mkCHM [] 4294967295, empty_heap).
Proof. reflexivity. Qed.

(** ** Keys and values that are not equal to themselves *)




(** More of what a NaN key does in a new container of 16 shards: [Set]
    followed by [Delete] leaves the entry in place; [Keys] yields the key
    although [Get] does not find it; the container is not equal to
    itself; and [Insert] of a pair under NaN stores a pair that [Get]
    does not find. *)
Example NaN_keys :
  fst <$>
    (m <- comparable.NewConcurrentHashMap 16 ;;
     comparable.Set_ m NaN 1 ;;;
     comparable.Delete m NaN ;;;
     n <- comparable.Range m (λ _ _ n, (S n, true)) 0%nat ;;
     ks <- comparable.Keys m (λ k ks, (ks ++ [k], true)) [] ;;
     r <- comparable.Get m NaN ;;
     same <- comparable.EqualFunc m m Z.eqb ;;
     comparable.Insert m (λ yield, yield NaN 2 ;;; ret tt) ;;;
     r' <- comparable.Get m NaN ;;
     n' <- comparable.Range m (λ _ _ n, (S n, true)) 0%nat ;;
     ret (n, ks, r, same, r', n'))
    (comparable.empty_heap (K := float64_special) (V := Z))
  = Some (1%nat, [NaN], (0, false), false, (0, false), 2%nat).
Proof. vm_compute. reflexivity. Qed.

(** ** Instances of the theorems *)

Lemma C2_witness :
  1 ≤ 3 ∧
  ∃ c σ, NewConcurrentHashMap (K := string) (V := Z) 3 empty_heap = Some (c, σ) ∧
         ∀ key : string, 0 ≤ shardIndex c key < 3.
Proof.
  split; [lia|].
  destruct (C2_mask_routing (K := string) (V := Z) 3 empty_heap ltac:(lia))
    as (c & σ & Hrun & Hidx & _).
  exists c, σ. split; [exact Hrun|]. intros key. apply Hidx.
Defined.

Lemma C3_witness :
  (-1 < 0 ∧ NewConcurrentHashMap (K := string) (V := Z) (-1) empty_heap = None) ∧
  (1 ≤ 2 ∧
   ∃ c σ, NewConcurrentHashMap (K := string) (V := Z) 2 empty_heap = Some (c, σ) ∧
          length (shards c) = 2%nat ∧ valid c σ).
Proof.
  split; (split; [lia|]).
  - apply (C3_construction (K := string) (V := Z) (-1) empty_heap). lia.
  - destruct (C3_construction (K := string) (V := Z) 2 empty_heap) as (_ & _ & Hpos).
    destruct (Hpos ltac:(lia)) as (c & σ & Hrun & Hlen & _ & Hv).
    by exists c, σ.
Defined.


Lemma C5_witness :
  valid demo_map demo_heap ∧
  ∃ σ', Delete demo_map "b"%string demo_heap = Some (tt, σ') ∧
        Get demo_map "b"%string σ' = Some ((0, false), σ') ∧
        (¬ live demo_map demo_heap "b"%string → σ' = demo_heap) ∧
        Delete demo_map "b"%string σ' = Some (tt, σ').
Proof.
  split; [exact demo_valid|].
  exact (C5_Delete demo_map demo_heap "b"%string demo_valid).
Defined.


Lemma C7_witness :
  valid demo_map demo_heap ∧ NoDup ["c"; "a"; "b"]%string ∧
  (∀ key, key ∈ ["c"; "a"; "b"]%string ↔ live demo_map demo_heap key) ∧
  ∃ log st',
    Range demo_map (traced (λ _ _ (n : nat), (S n, true))) ([], 0%nat) demo_heap
      = Some ((log, st'), demo_heap) ∧
    length log = 3%nat.
Proof.
  split_and!; [exact demo_valid|exact demo_keys_NoDup|exact demo_live|].
  destruct (C7_Range demo_map demo_heap (λ _ _ (n : nat), (S n, true)) 0%nat
              ["c"; "a"; "b"]%string demo_valid demo_keys_NoDup demo_live)
    as (log & st' & Hrun & _ & _ & Hall & _).
  exists log, st'. split; [exact Hrun|]. by apply Hall.
Defined.

Lemma C8_witness :
  valid demo_map demo_heap ∧
  ∃ c' σ' r,
    Clone demo_map demo_heap = Some (c', σ') ∧
    Collect demo_map σ' = Some (r, σ') ∧ Collect c' σ' = Some (r, σ') ∧
    ∃ σ'', mutate c' [MSet "a" 9; MDelete "b"]%string σ' = Some (tt, σ'') ∧
           contents demo_map σ'' = contents demo_map σ'.
Proof.
  split; [exact demo_valid|].
  destruct (C8_Clone_independent demo_map demo_heap demo_valid)
    as (c' & σ' & r & Hrun & _ & _ & _ & Hc & Hc' & Hclone & _).
  destruct (Hclone [MSet "a" 9; MDelete "b"]%string) as (σ'' & Hmut & Hcont & _).
  exists c', σ', r. split_and!; [exact Hrun|exact Hc|exact (Hc' _)|].
  by exists σ''.
Defined.


Lemma C10_witness :
  valid demo_map demo_heap ∧ "a"%string ≠ "b"%string ∧
  (∃ σ' r, Set_ demo_map "b"%string 8 demo_heap = Some (tt, σ') ∧
           Get demo_map "a"%string demo_heap = Some (r, demo_heap) ∧
           Get demo_map "a"%string σ' = Some (r, σ')) ∧
  (∃ σ' r, Delete demo_map "b"%string demo_heap = Some (tt, σ') ∧
           Get demo_map "a"%string demo_heap = Some (r, demo_heap) ∧
           Get demo_map "a"%string σ' = Some (r, σ')).
Proof.
  assert (Hne : "a"%string ≠ "b"%string) by done.
  split_and!; [exact demo_valid|exact Hne|..];
    apply (C10_frame demo_map demo_heap "b"%string "a"%string 8 demo_valid Hne).
Defined.

Lemma demo_absent : ¬ live demo_map demo_heap "d"%string.
Proof.
  intros Hl. apply demo_live in Hl.
  repeat (apply elem_of_cons in Hl as [Hl|Hl]; [discriminate|]).
  by apply elem_of_nil in Hl.
Qed.

Lemma demo_present : live demo_map demo_heap "a"%string.
Proof. apply demo_live. rewrite !elem_of_cons. auto. Qed.

Lemma demo_count : count_entries demo_map demo_heap = Some (3%nat, demo_heap).
Proof. vm_compute. reflexivity. Qed.


Lemma X2_witness :
  1 ≤ 2 ∧
  ∃ c σ', NewConcurrentHashMap (K := string) (V := Z) 2 empty_heap
            = Some (c, σ') ∧
          (∀ key, Get c key σ' = Some ((0, false), σ')) ∧
          Collect c σ' = Some (∅, σ').
Proof.
  split; [lia|].
  destruct (X2_new_container_is_empty (K := string) (V := Z) 2 empty_heap
              ltac:(lia)) as (c & σ' & Hrun & Hget & Hcol & _).
  by exists c, σ'.
Defined.

Lemma X3_witness :
  valid demo_map demo_heap ∧
  mutation_key (MSet "a"%string 5) ≠
    mutation_key (MDelete "b"%string : mutation string Z) ∧
  ∃ σ', mutate demo_map [MSet "a" 5; MDelete "b"]%string demo_heap
          = Some (tt, σ') ∧
        mutate demo_map [MDelete "b"; MSet "a" 5]%string demo_heap
          = Some (tt, σ').
Proof.
  assert (Hne : mutation_key (MSet "a"%string 5) ≠
                mutation_key (MDelete "b"%string : mutation string Z))
    by (simpl; done).
  split_and!; [exact demo_valid|exact Hne|].
  exact (X3_writes_to_different_keys_commute demo_map demo_heap
           (MSet "a"%string 5) (MDelete "b"%string) demo_valid Hne).
Defined.

Lemma X4_witness :
  valid demo_map demo_heap ∧
  (¬ live demo_map demo_heap "d"%string ∧
   ∃ σ1, Set_ demo_map "d"%string 4 demo_heap = Some (tt, σ1) ∧
         Delete demo_map "d"%string σ1 = Some (tt, demo_heap)) ∧
  (Get demo_map "a"%string demo_heap = Some ((1, true), demo_heap) ∧
   ∃ σ1, Delete demo_map "a"%string demo_heap = Some (tt, σ1) ∧
         Set_ demo_map "a"%string 1 σ1 = Some (tt, demo_heap)).
Proof.
  assert (Hget : Get demo_map "a"%string demo_heap
                 = Some ((1, true), demo_heap)) by (vm_compute; reflexivity).
  split; [exact demo_valid|].
  split; (split; [first [exact demo_absent|exact Hget]|]).
  - exact (proj1 (X4_Set_Delete_round_trip demo_map demo_heap "d"%string 4
                    demo_valid) demo_absent).
  - exact (proj2 (X4_Set_Delete_round_trip demo_map demo_heap "a"%string 1
                    demo_valid) Hget).
Defined.

Lemma X5_witness :
  valid demo_map demo_heap ∧
  count_entries demo_map demo_heap = Some (3%nat, demo_heap) ∧
  ¬ live demo_map demo_heap "d"%string ∧
  live demo_map demo_heap "a"%string ∧
  (∃ σ1, Set_ demo_map "d"%string 4 demo_heap = Some (tt, σ1) ∧
         count_entries demo_map σ1 = Some (4%nat, σ1)) ∧
  (∃ σ2, Delete demo_map "a"%string demo_heap = Some (tt, σ2) ∧
         count_entries demo_map σ2 = Some (2%nat, σ2)).
Proof.
  split_and!;
    [exact demo_valid|exact demo_count|exact demo_absent|exact demo_present|..].
  - destruct (X5_entry_count demo_map demo_heap "d"%string 4 3
                demo_valid demo_count) as (σ1 & σ2 & Hset & _ & Hnew & _).
    exists σ1. split; [exact Hset|]. exact (proj1 (Hnew demo_absent)).
  - destruct (X5_entry_count demo_map demo_heap "a"%string 4 3
                demo_valid demo_count) as (σ1 & σ2 & _ & Hdel & _ & Hold).
    exists σ2. split; [exact Hdel|]. exact (proj1 (proj2 (Hold demo_present))).
Defined.

Lemma X6_witness :
  valid demo_map demo_heap ∧
  ∃ ks, collect_keys demo_map demo_heap = Some (ks, demo_heap) ∧ NoDup ks ∧
        ∀ key, key ∈ ks ↔ live demo_map demo_heap key.
Proof.
  split; [exact demo_valid|].
  exact (X6_Keys_yields_live_keys demo_map demo_heap demo_valid).
Defined.


Lemma X8_witness :
  valid demo_map demo_heap ∧
  ∃ kvs, collect_pairs demo_map demo_heap = Some (kvs, demo_heap) ∧
         StronglySorted le (entry_shard demo_map <$> kvs).
Proof.
  split; [exact demo_valid|].
  exact (X8_walk_in_shard_order demo_map demo_heap demo_valid).
Defined.

Lemma X9_witness :
  valid demo_map demo_heap ∧
  ∃ σ', Insert demo_map
          (seq_of_list [("a", 5); ("d", 6); ("a", 7)]%string) demo_heap
          = Some (tt, σ') ∧
        Insert demo_map
          (seq_ignoring [("a", 5); ("d", 6); ("a", 7)]%string) demo_heap
          = Some (tt, σ') ∧
        valid demo_map σ'.
Proof.
  split; [exact demo_valid|].
  destruct (X9_Insert_applies_pairs_in_order demo_map demo_heap
              [("a", 5); ("d", 6); ("a", 7)]%string demo_valid)
    as (σ' & Hrun & Hrun' & Hv & _).
  by exists σ'.
Defined.

Lemma X10_witness :
  valid demo_map demo_heap ∧
  ∃ c' σ', Clone demo_map demo_heap = Some (c', σ') ∧ valid c' σ' ∧
           ∀ key, ∃ r, Get demo_map key demo_heap = Some (r, demo_heap) ∧
                       Get demo_map key σ' = Some (r, σ') ∧
                       Get c' key σ' = Some (r, σ').
Proof.
  split; [exact demo_valid|].
  exact (X10_Clone_answers_like_source demo_map demo_heap demo_valid).
Defined.

Lemma X11_witness :
  valid demo_map demo_heap ∧
  ∃ b, EqualFunc demo_map demo_map Z.eqb demo_heap = Some (b, demo_heap) ∧
       (b = true ↔
        length (shards demo_map) = length (shards demo_map) ∧
        ∀ i x y, contents demo_map demo_heap !! i = Some (Some x) →
                 contents demo_map demo_heap !! i = Some (Some y) →
                 maps_related Z.eqb x y).
Proof.
  split; [exact demo_valid|].
  exact (X11_EqualFunc_compares_shard_by_shard demo_map demo_map demo_heap
           Z.eqb demo_valid demo_valid).
Defined.

Lemma X12_witness :
  valid demo_map demo_heap ∧ (∀ a, Z.eqb a a = true) ∧
  EqualFunc demo_map demo_map Z.eqb demo_heap = Some (true, demo_heap).
Proof.
  split_and!; [exact demo_valid|exact Z.eqb_refl|].
  exact (X12_EqualFunc_with_itself demo_map demo_heap Z.eqb
           demo_valid Z.eqb_refl).
Defined.

Lemma X13_witness :
  valid demo_map demo_heap ∧ ¬ live demo_map demo_heap "d"%string ∧
  ∃ c' σ1 σ2,
    Clone demo_map demo_heap = Some (c', σ1) ∧
    Set_ c' "d"%string 4 σ1 = Some (tt, σ2) ∧
    EqualFunc demo_map c' (λ _ _, true) σ2 = Some (false, σ2) ∧
    EqualFunc c' demo_map (λ _ _, true) σ2 = Some (false, σ2).
Proof.
  split_and!; [exact demo_valid|exact demo_absent|].
  exact (X13_EqualFunc_sees_an_added_key demo_map demo_heap "d"%string 4
           (λ _ _, true) demo_valid demo_absent).
Defined.

Lemma X14_witness :
  1 ≤ 3 < 2 ^ 32 ∧ ¬ is_pow2 3 ∧
  ∃ c σ' s,
    NewConcurrentHashMap (K := string) (V := Z) 3 empty_heap = Some (c, σ') ∧
    s ∈ shards c ∧
    ∀ key (τ : Heap string Z), getShard c key τ ≠ Some (s, τ).
Proof.
  assert (Hn : 1 ≤ 3 < 2 ^ 32) by lia.
  split; [exact Hn|]. split; [exact not_pow2_3|].
  exact (X14_some_shard_is_never_used (K := string) (V := Z) 3 empty_heap
           Hn not_pow2_3).
Defined.

Lemma X16_witness :
  1 ≤ 1 ∧ 1 ≤ 2 ∧
  ∃ c1 σ1 c2 σ2,
    NewConcurrentHashMap (K := string) (V := Z) 1 empty_heap = Some (c1, σ1) ∧
    NewConcurrentHashMap 2 σ1 = Some (c2, σ2) ∧
    valid c1 σ2 ∧ valid c2 σ2 ∧ separate c1 c2 σ2.
Proof.
  split; [lia|]. split; [lia|].
  destruct (X16_constructed_containers_are_separate (K := string) (V := Z)
              1 2 empty_heap ltac:(lia) ltac:(lia))
    as (c1 & σ1 & c2 & σ2 & Hrun1 & Hrun2 & Hv1 & Hv2 & Hsep & _).
  by exists c1, σ1, c2, σ2.
Defined.

Lemma X17_witness :
  valid demo_map demo_heap ∧
  count_entries demo_map demo_heap = Some (3%nat, demo_heap) ∧
  (∃ log st',
     Keys demo_map (traced1 (λ (_ : string) (n : nat), (S n, false)))
       ([], 0%nat) demo_heap = Some ((log, st'), demo_heap) ∧
     (length log ≤ 3)%nat) ∧
  (∃ log st',
     Values demo_map (traced1 (λ (v : Z) (n : nat), (S n, v <? 3)))
       ([], 0%nat) demo_heap = Some ((log, st'), demo_heap) ∧
     (length log ≤ 3)%nat).
Proof.
  split_and!; [exact demo_valid|exact demo_count|..].
  - destruct (X17_Keys_Values_stop_early demo_map demo_heap
                (λ (_ : string) (n : nat), (S n, false))
                (λ (v : Z) (n : nat), (S n, v <? 3)) 0%nat 3
                demo_valid demo_count)
      as [(log & st' & Hrun & Hlen & _) _].
    by exists log, st'.
  - destruct (X17_Keys_Values_stop_early demo_map demo_heap
                (λ (_ : string) (n : nat), (S n, false))
                (λ (v : Z) (n : nat), (S n, v <? 3)) 0%nat 3
                demo_valid demo_count)
      as [_ (log & st' & Hrun & Hlen & _)].
    by exists log, st'.
Defined.


Lemma X18_witness :
  valid demo_map demo_heap ∧ live demo_map demo_heap "a"%string ∧
  Insert demo_map (All_seq demo_map) demo_heap = None.
Proof.
  split_and!; [exact demo_valid|exact demo_present|].
  exact (X18_Insert_of_own_All_blocks demo_map demo_heap "a"%string
           demo_valid demo_present).
Defined.

